(** * scan.js: the Pi node checker, embedded and verified

    The program reads [servers.txt] and [wallets.txt], probes every
    (server, wallet) pair over HTTP, classifies each response and appends the
    outcome to [valid.txt], [novalid.txt] or [timeout.txt].

    Modelling conventions.
    - A JavaScript string is the list of its UTF-16 code units ([jsstring]).
    - A thrown exception is a [Throw] completion carrying the error object;
      [try]/[catch] is [try_catch].
    - The network is an oracle: for the n-th probe of a run and its URL it says
      what the remote end does and after how many milliseconds.  Time is
      counted in whole milliseconds, the timer wins a tie, and its delay is
      the one [setTimeout] makes of the number it is given.
    - The file system is a finite map from file names to contents, as text
      decoded from UTF-8.  Writes to the three output files are taken to
      succeed.
    - One step of the driver is one test of a loop, with the body it leads
      to: a probe, its line and its counter go together.
    - Reading the body of a response gives the text or throws; limits of an
      engine (nesting depth in [JSON.parse], memory) are not modelled.
    - Console output is not part of the model. *)

From Stdlib Require Import ZArith NArith List String Ascii Lia ZifyBool Bool.
From stdpp Require Import base option list gmap strings.

Local Open Scope N_scope.

(** ** JavaScript strings *)

Definition jsstring : Type := list N.

(** A source-code string literal (ASCII) as a JavaScript string. *)
Definition str (s : string) : jsstring :=
  map N_of_ascii (list_ascii_of_string s).

Fixpoint startsWith (s pat : jsstring) : bool :=
  match pat, s with
  | [], _ => true
  | _ :: _, [] => false
  | p :: pat', c :: s' => (c =? p) && startsWith s' pat'
  end.

(** [String.prototype.includes]. *)
Fixpoint includes (s pat : jsstring) : bool :=
  startsWith s pat ||
  match s with
  | [] => false
  | _ :: s' => includes s' pat
  end.

(** Decimal digits of a non-negative integer, as [String(n)] prints them. *)
Fixpoint uint_digits (d : Decimal.uint) : jsstring :=
  match d with
  | Decimal.Nil => []
  | Decimal.D0 d => 48 :: uint_digits d
  | Decimal.D1 d => 49 :: uint_digits d
  | Decimal.D2 d => 50 :: uint_digits d
  | Decimal.D3 d => 51 :: uint_digits d
  | Decimal.D4 d => 52 :: uint_digits d
  | Decimal.D5 d => 53 :: uint_digits d
  | Decimal.D6 d => 54 :: uint_digits d
  | Decimal.D7 d => 55 :: uint_digits d
  | Decimal.D8 d => 56 :: uint_digits d
  | Decimal.D9 d => 57 :: uint_digits d
  end.

Definition N_toString (n : N) : jsstring := uint_digits (N.to_uint n).

(** ** Exceptions *)

Record JsError : Type := mkError { name : jsstring; message : jsstring }.

(** [String(err)], i.e. [Error.prototype.toString]. *)
Definition Error_toString (e : JsError) : jsstring :=
  match name e, message e with
  | n, [] => n
  | [], m => m
  | n, m => n ++ str ": " ++ m
  end.

Inductive Completion (A : Type) : Type :=
| Normal (a : A)
| Throw (e : JsError).
Arguments Normal {A} a.
Arguments Throw {A} e.

Definition bind {A B} (c : Completion A) (k : A -> Completion B) : Completion B :=
  match c with
  | Normal a => k a
  | Throw e => Throw e
  end.

Definition try_catch {A} (body : Completion A) (handler : JsError -> Completion A)
  : Completion A :=
  match body with
  | Normal a => Normal a
  | Throw e => handler e
  end.

Notation "'let*' x ':=' c 'in' k" := (bind c (fun x => k))
  (at level 10, x name, c at level 100, k at level 200).
Notation "'let*' ' p ':=' c 'in' k" := (bind c (fun p => k))
  (at level 10, p strict pattern, c at level 100, k at level 200).

(** ** Constants of scan.js *)

Definition DEFAULT_PORT : N := 31401.
Definition SERVERS_FILE : string := "servers.txt".
Definition WALLETS_FILE : string := "wallets.txt".
Definition TIMEOUT_MS : N := 7000.

(** ** encodeURIComponent *)

Definition in_range (lo hi c : N) : bool := (lo <=? c) && (c <=? hi).

(** Characters left as they are: letters, digits and [-_.!~*'()]. *)
Definition uri_unreserved (c : N) : bool :=
  in_range 65 90 c || in_range 97 122 c || in_range 48 57 c ||
  existsb (N.eqb c) (str "-_.!~*'()").

Definition is_high_surrogate (c : N) : bool := in_range 0xD800 0xDBFF c.
Definition is_low_surrogate (c : N) : bool := in_range 0xDC00 0xDFFF c.

Definition utf8_encode (cp : N) : list N :=
  if cp <? 0x80 then [cp]
  else if cp <? 0x800 then
    [N.lor 0xC0 (N.shiftr cp 6); N.lor 0x80 (N.land cp 0x3F)]
  else if cp <? 0x10000 then
    [N.lor 0xE0 (N.shiftr cp 12);
     N.lor 0x80 (N.land (N.shiftr cp 6) 0x3F);
     N.lor 0x80 (N.land cp 0x3F)]
  else
    [N.lor 0xF0 (N.shiftr cp 18);
     N.lor 0x80 (N.land (N.shiftr cp 12) 0x3F);
     N.lor 0x80 (N.land (N.shiftr cp 6) 0x3F);
     N.lor 0x80 (N.land cp 0x3F)].

Definition hex_digit (n : N) : N := if n <? 10 then 48 + n else 55 + n.

Definition percent (b : N) : jsstring :=
  [37; hex_digit (N.shiftr b 4); hex_digit (N.land b 0xF)].

Definition percent_encode (cp : N) : jsstring :=
  flat_map percent (utf8_encode cp).

Definition URIError : JsError := mkError (str "URIError") (str "URI malformed").

Fixpoint encodeURIComponent (s : jsstring) : Completion jsstring :=
  match s with
  | [] => Normal []
  | c :: rest =>
    if uri_unreserved c then
      let* r := encodeURIComponent rest in Normal (c :: r)
    else if is_low_surrogate c then Throw URIError
    else if is_high_surrogate c then
      match rest with
      | d :: rest' =>
        if is_low_surrogate d then
          let* r := encodeURIComponent rest' in
          Normal (percent_encode ((c - 0xD800) * 0x400 + (d - 0xDC00) + 0x10000) ++ r)
        else Throw URIError
      | [] => Throw URIError
      end
    else
      let* r := encodeURIComponent rest in Normal (percent_encode c ++ r)
  end.

(** ** buildUrl *)

Definition buildUrl (server wallet : jsstring) : Completion jsstring :=
  let host :=
    if includes server (str ":") then server
    else server ++ str ":" ++ N_toString DEFAULT_PORT in
  let* w := encodeURIComponent wallet in
  Normal (str "http://" ++ host ++ str "/claimable_balances?claimant=" ++ w).

(** ** Numbers

    A JSON number literal denotes the binary64 value nearest to it.  The value
    is kept exactly: zero, an infinity, or [(-1)^neg * m * 2^e] with
    [m < 2^53] and [e >= -1074] (and [m >= 2^52] unless [e = -1074]). *)

Inductive Number : Type :=
| NumZero
| NumFinite (neg : bool) (m : Z) (e : Z)
| NumInfinity (neg : bool).

Local Open Scope Z_scope.

(** [floor (log2 (n / d))] for positive [n] and [d]. *)
Definition floor_log2_ratio (n d : Z) : Z :=
  let l := Z.log2 n - Z.log2 d in
  let above := if 0 <=? l then d * 2 ^ l <=? n else d <=? n * 2 ^ (- l) in
  if above then l else l - 1.

(** The binary64 value nearest to [n / d] (ties to even), [n], [d] positive. *)
Definition round_ratio (neg : bool) (n d : Z) : Number :=
  let e := Z.max (floor_log2_ratio n d - 52) (-1074) in
  let num := if 0 <=? e then n else n * 2 ^ (- e) in
  let den := if 0 <=? e then d * 2 ^ e else d in
  let q := num / den in
  let r := num mod den in
  let q := if (den <? 2 * r) || ((den =? 2 * r) && Z.odd q) then q + 1 else q in
  let '(q, e) := if q =? 2 ^ 53 then (2 ^ 52, e + 1) else (q, e) in
  if q =? 0 then NumZero
  else if 971 <? e then NumInfinity neg
  else NumFinite neg q e.

(** The value of the decimal [m * 10^e10]. *)
Definition Number_of_decimal (neg : bool) (m : Z) (e10 : Z) : Number :=
  if m <=? 0 then NumZero
  else if 0 <=? e10 then round_ratio neg (m * 10 ^ e10) 1
  else round_ratio neg m (10 ^ (- e10)).

(** [ToBoolean]: only zero is falsy (a JSON number is never NaN). *)
Definition Number_truthy (x : Number) : bool :=
  match x with NumZero => false | _ => true end.

(** [floor (log10 (n / d))] for positive [n] and [d]: an estimate from the
    binary logarithm, then stepped up while the next power of ten still fits. *)
Definition pow10_le (k n d : Z) : bool :=
  if 0 <=? k then d * 10 ^ k <=? n else d <=? n * 10 ^ (- k).

Fixpoint step_up (fuel : nat) (k n d : Z) : Z :=
  match fuel with
  | O => k
  | S fuel => if pow10_le (k + 1) n d then step_up fuel (k + 1) n d else k
  end.

Definition floor_log10_ratio (n d : Z) : Z :=
  step_up 6 ((Z.log2 n - Z.log2 d) * 1233 / 4096 - 2) n d.

(** The candidates with [k] digits for the shortest decimal of [m * 2^e]:
    [(s, n)] stands for [s * 10^(n - k)]. *)
Definition digits_candidate (m e : Z) (k : Z) : option (Z * Z) :=
  let n := if 0 <=? e then m * 2 ^ e else m in
  let d := if 0 <=? e then 1 else 2 ^ (- e) in
  let n10 := floor_log10_ratio n d + 1 in
  let sh := k - n10 in
  let num := if 0 <=? sh then n * 10 ^ sh else n in
  let den := if 0 <=? sh then d else d * 10 ^ (- sh) in
  let lo := num / den in
  let hi := lo + 1 in
  let back (s : Z) (n10 : Z) := Number_of_decimal false s (n10 - k) in
  let ok_lo := match back lo n10 with
               | NumFinite _ m' e' => (m' =? m) && (e' =? e)
               | _ => false
               end in
  let '(hi, nhi) := if hi =? 10 ^ k then (10 ^ (k - 1), n10 + 1) else (hi, n10) in
  let ok_hi := match back hi nhi with
               | NumFinite _ m' e' => (m' =? m) && (e' =? e)
               | _ => false
               end in
  let lo_closer := 2 * (num mod den) <=? den in
  if ok_lo && (negb ok_hi || lo_closer) then Some (lo, n10)
  else if ok_hi then Some (hi, nhi)
  else None.

Fixpoint shortest_digits (fuel : nat) (m e : Z) (k : Z) : Z * Z * Z :=
  match fuel with
  | O => (m, k, k)
  | S fuel =>
    match digits_candidate m e k with
    | Some (s, n) => (s, k, n)
    | None => shortest_digits fuel m e (k + 1)
    end
  end.

Definition Z_digits (z : Z) : jsstring := N_toString (Z.to_N z).

Definition zeros (n : Z) : jsstring := repeat 48%N (Z.to_nat n).

(** [Number::toString] in radix 10. *)
Definition Number_toString (x : Number) : jsstring :=
  match x with
  | NumZero => str "0"
  | NumInfinity neg => (if neg then str "-" else []) ++ str "Infinity"
  | NumFinite neg m e =>
    let '(s, k, n) := shortest_digits 17 m e 1 in
    let ds := Z_digits s in
    (if neg then str "-" else []) ++
    if (-5 <=? n) && (n <=? 21) then
      if k <=? n then ds ++ zeros (n - k)
      else if 0 <? n then take (Z.to_nat n) ds ++ str "." ++ drop (Z.to_nat n) ds
      else str "0." ++ zeros (- n) ++ ds
    else
      let ex := n - 1 in
      let sign := if 0 <? ex then str "+" else str "-" in
      if k =? 1 then ds ++ str "e" ++ sign ++ Z_digits (Z.abs ex)
      else take 1 ds ++ str "." ++ drop 1 ds ++ str "e" ++ sign ++ Z_digits (Z.abs ex)
  end.

Local Close Scope Z_scope.

(** ** JSON values and JSON.parse *)

#[warnings="-register-all"]
Inductive json : Type :=
| JNull
| JBool (b : bool)
| JNumber (x : Number)
| JString (s : jsstring)
| JArray (elems : list json)
| JObject (members : list (jsstring * json)).

(** The message of a [SyntaxError] depends on the engine; scan.js never looks
    at it. *)
Definition SyntaxError : JsError :=
  mkError (str "SyntaxError") (str "Unexpected token in JSON").

Definition TypeError (msg : string) : JsError :=
  mkError (str "TypeError") (str msg).

Definition is_ws (c : N) : bool :=
  (c =? 32) || (c =? 9) || (c =? 10) || (c =? 13).

Fixpoint skip_ws (s : jsstring) : jsstring :=
  match s with
  | c :: rest => if is_ws c then skip_ws rest else s
  | [] => []
  end.

Definition is_digit (c : N) : bool := in_range 48 57 c.

Definition hex_value (c : N) : option N :=
  if is_digit c then Some (c - 48)
  else if in_range 97 102 c then Some (c - 87)
  else if in_range 65 70 c then Some (c - 55)
  else None.

Definition hex4 (a b c d : N) : option N :=
  match hex_value a, hex_value b, hex_value c, hex_value d with
  | Some a, Some b, Some c, Some d => Some (((a * 16 + b) * 16 + c) * 16 + d)
  | _, _, _, _ => None
  end.

(** The character after a backslash, other than [u]. *)
Definition simple_escape (c : N) : option N :=
  if (c =? 34) || (c =? 92) || (c =? 47) then Some c
  else if c =? 98 then Some 8
  else if c =? 102 then Some 12
  else if c =? 110 then Some 10
  else if c =? 114 then Some 13
  else if c =? 116 then Some 9
  else None.

(** A string, from just after its opening quote: the decoded string and the
    text after the closing quote. *)
Fixpoint parse_string (s : jsstring) : Completion (jsstring * jsstring) :=
  match s with
  | [] => Throw SyntaxError
  | c :: rest =>
    if c =? 34 then Normal ([], rest)
    else if c =? 92 then
      match rest with
      | [] => Throw SyntaxError
      | e :: rest1 =>
        if e =? 117 then
          match rest1 with
          | h1 :: h2 :: h3 :: h4 :: rest2 =>
            match hex4 h1 h2 h3 h4 with
            | Some u => let* '(t, r) := parse_string rest2 in Normal (u :: t, r)
            | None => Throw SyntaxError
            end
          | _ => Throw SyntaxError
          end
        else
          match simple_escape e with
          | Some u => let* '(t, r) := parse_string rest1 in Normal (u :: t, r)
          | None => Throw SyntaxError
          end
      end
    else if c <? 32 then Throw SyntaxError
    else let* '(t, r) := parse_string rest in Normal (c :: t, r)
  end.

(** A run of digits: its value on top of [acc], how many there were, and the
    text after them. *)
Fixpoint take_digits (s : jsstring) (acc : Z) (cnt : Z) : Z * Z * jsstring :=
  match s with
  | c :: rest =>
    if is_digit c then take_digits rest (10 * acc + Z.of_N (c - 48))%Z (cnt + 1)%Z
    else (acc, cnt, s)
  | [] => (acc, cnt, [])
  end.

(** A number literal: an optional minus sign, then [0] or a digit run not
    starting with [0], then an optional fraction (a dot and at least one
    digit), then an optional exponent ([e] or [E], an optional sign, at least
    one digit). *)
Definition parse_number (s : jsstring) : Completion (Number * jsstring) :=
  let '(neg, s1) := match s with
                    | c :: r => if c =? 45 then (true, r) else (false, s)
                    | [] => (false, s)
                    end in
  let* '(int, s2) :=
    match s1 with
    | c :: r =>
      if c =? 48 then Normal (0%Z, r)
      else if is_digit c then let '(v, _, r') := take_digits s1 0%Z 0%Z in Normal (v, r')
      else Throw SyntaxError
    | [] => Throw SyntaxError
    end in
  let* '(m, fl, s3) :=
    match s2 with
    | c :: r =>
      if c =? 46 then
        let '(v, n, r') := take_digits r int 0%Z in
        if (n =? 0)%Z then Throw SyntaxError else Normal (v, n, r')
      else Normal (int, 0%Z, s2)
    | [] => Normal (int, 0%Z, s2)
    end in
  let* '(ex, s4) :=
    match s3 with
    | c :: r =>
      if (c =? 101) || (c =? 69) then
        let '(eneg, r1) := match r with
                           | d :: r' => if d =? 45 then (true, r')
                                        else if d =? 43 then (false, r')
                                        else (false, r)
                           | [] => (false, r)
                           end in
        let '(v, n, r2) := take_digits r1 0%Z 0%Z in
        if (n =? 0)%Z then Throw SyntaxError
        else Normal (if eneg then (- v)%Z else v, r2)
      else Normal (0%Z, s3)
    | [] => Normal (0%Z, s3)
    end in
  Normal (Number_of_decimal neg m (ex - fl)%Z, s4).

(** Recursive descent; [None] only when [fuel] runs out, which
    [JSON_parse] below never lets happen. *)
Fixpoint parse_value (fuel : nat) (s : jsstring)
  : option (Completion (json * jsstring)) :=
  match fuel with
  | O => None
  | S fuel =>
    match skip_ws s with
    | [] => Some (Throw SyntaxError)
    | (c :: rest) as s' =>
      if c =? 123 then
        match skip_ws rest with
        | d :: rest' =>
          if d =? 125 then Some (Normal (JObject [], rest'))
          else
            match parse_members fuel rest [] with
            | Some (Normal (ms, r)) => Some (Normal (JObject ms, r))
            | Some (Throw e) => Some (Throw e)
            | None => None
            end
        | [] => Some (Throw SyntaxError)
        end
      else if c =? 91 then
        match skip_ws rest with
        | d :: rest' =>
          if d =? 93 then Some (Normal (JArray [], rest'))
          else
            match parse_elements fuel rest [] with
            | Some (Normal (vs, r)) => Some (Normal (JArray vs, r))
            | Some (Throw e) => Some (Throw e)
            | None => None
            end
        | [] => Some (Throw SyntaxError)
        end
      else if c =? 34 then
        Some (let* '(t, r) := parse_string rest in Normal (JString t, r))
      else if startsWith s' (str "true") then Some (Normal (JBool true, drop 4 s'))
      else if startsWith s' (str "false") then Some (Normal (JBool false, drop 5 s'))
      else if startsWith s' (str "null") then Some (Normal (JNull, drop 4 s'))
      else Some (let* '(x, r) := parse_number s' in Normal (JNumber x, r))
    end
  end
with parse_elements (fuel : nat) (s : jsstring) (acc : list json)
  : option (Completion (list json * jsstring)) :=
  match fuel with
  | O => None
  | S fuel =>
    match parse_value fuel s with
    | Some (Normal (v, rest)) =>
      match skip_ws rest with
      | d :: rest' =>
        if d =? 44 then parse_elements fuel rest' (v :: acc)
        else if d =? 93 then Some (Normal (rev (v :: acc), rest'))
        else Some (Throw SyntaxError)
      | [] => Some (Throw SyntaxError)
      end
    | Some (Throw e) => Some (Throw e)
    | None => None
    end
  end
with parse_members (fuel : nat) (s : jsstring) (acc : list (jsstring * json))
  : option (Completion (list (jsstring * json) * jsstring)) :=
  match fuel with
  | O => None
  | S fuel =>
    match skip_ws s with
    | q :: s1 =>
      if q =? 34 then
        match parse_string s1 with
        | Normal (k, s2) =>
          match skip_ws s2 with
          | colon :: s3 =>
            if colon =? 58 then
              match parse_value fuel s3 with
              | Some (Normal (v, rest)) =>
                match skip_ws rest with
                | d :: rest' =>
                  if d =? 44 then parse_members fuel rest' ((k, v) :: acc)
                  else if d =? 125 then Some (Normal (rev ((k, v) :: acc), rest'))
                  else Some (Throw SyntaxError)
                | [] => Some (Throw SyntaxError)
                end
              | Some (Throw e) => Some (Throw e)
              | None => None
              end
            else Some (Throw SyntaxError)
          | [] => Some (Throw SyntaxError)
          end
        | Throw e => Some (Throw e)
        end
      else Some (Throw SyntaxError)
    | [] => Some (Throw SyntaxError)
    end
  end.

(** [JSON.parse]: one value, with nothing but white space around it. *)
Definition JSON_parse (text : jsstring) : Completion json :=
  match parse_value (2 * length text + 1) text with
  | Some (Normal (v, rest)) =>
    match skip_ws rest with
    | [] => Normal v
    | _ :: _ => Throw SyntaxError
    end
  | Some (Throw e) => Throw e
  | None => Throw SyntaxError
  end.

(** ** Operations on parsed values

    A JavaScript value that may be [undefined] is an [option json]. *)

Definition jsstring_eqb (a b : jsstring) : bool := bool_decide (a = b).

(** The own property [k] of an object literal: the last member wins. *)
Fixpoint own_property (k : jsstring) (ms : list (jsstring * json)) : option json :=
  match ms with
  | [] => None
  | (k', v) :: rest =>
    match own_property k rest with
    | Some v' => Some v'
    | None => if jsstring_eqb k' k then Some v else None
    end
  end.

(** [base.k] for the property names scan.js reads ([_embedded], [records],
    [asset], [amount]), none of which is on a built-in prototype: reading
    from [null] or [undefined] throws, and anything but an object with that
    own property gives [undefined]. *)
Definition Get (base : option json) (k : jsstring) : Completion (option json) :=
  match base with
  | None | Some JNull =>
    Throw (TypeError "Cannot read properties of null or undefined")
  | Some (JObject ms) => Normal (own_property k ms)
  | Some _ => Normal None
  end.

(** [ToBoolean]. *)
Definition truthy (v : option json) : bool :=
  match v with
  | None | Some JNull => false
  | Some (JBool b) => b
  | Some (JNumber x) => Number_truthy x
  | Some (JString s) => match s with [] => false | _ :: _ => true end
  | Some (JArray _) | Some (JObject _) => true
  end.

(** [ToString], as a template literal applies it.  An array joins its
    elements with commas, [null] elements printing as nothing; an object
    prints as [[object Object]] unless it has a member named [toString],
    which hides [Object.prototype.toString] and is not callable. *)
Fixpoint json_ToString (v : json) : Completion jsstring :=
  match v with
  | JNull => Normal (str "null")
  | JBool b => Normal (if b then str "true" else str "false")
  | JNumber x => Normal (Number_toString x)
  | JString s => Normal s
  | JArray elems =>
    let element (e : json) :=
      match e with JNull => Normal [] | _ => json_ToString e end in
    (fix join (es : list json) : Completion jsstring :=
       match es with
       | [] => Normal []
       | [e] => element e
       | e :: rest =>
         let* a := element e in
         let* b := join rest in
         Normal (a ++ str "," ++ b)
       end) elems
  | JObject ms =>
    match own_property (str "toString") ms with
    | Some _ => Throw (TypeError "Cannot convert object to primitive value")
    | None => Normal (str "[object Object]")
    end
  end.

Definition ToString (v : option json) : Completion jsstring :=
  match v with
  | None => Normal (str "undefined")
  | Some j => json_ToString j
  end.

(** ** The network *)

(** An HTTP response: its status code and what reading its body gives. *)
Record Response : Type := mkResponse {
  res_status : N;
  res_text : Completion jsstring
}.

Definition res_ok (res : Response) : bool := in_range 200 299 (res_status res).

(** What the remote end does with a request, and after how many
    milliseconds. *)
Inductive NetBehaviour : Type :=
| Responds (after_ms : N) (res : Response)
| Fails (after_ms : N) (err : JsError)
| Hangs.

(** What [controller.abort()] makes [fetch] reject with. *)
Definition AbortError : JsError :=
  mkError (str "AbortError") (str "This operation was aborted").

(** The delay [setTimeout] arms a timer with: a delay of 1 to 2^31-1
    milliseconds as it is, any other as 1 millisecond. *)
Definition timer_delay (ms : N) : N :=
  if in_range 1 0x7FFFFFFF ms then ms else 1.

(** [fetchWithTimeout]: the timer aborts the request when it has not settled
    after the delay [setTimeout] makes of [timeoutMs]; otherwise the response
    is returned or the error rethrown. *)
Definition fetchWithTimeout (net : jsstring -> NetBehaviour) (url : jsstring)
    (timeoutMs : N) : Completion Response :=
  match net url with
  | Responds t res =>
    if t <? timer_delay timeoutMs then Normal res else Throw AbortError
  | Fails t err =>
    if t <? timer_delay timeoutMs then Throw err else Throw AbortError
  | Hangs => Throw AbortError
  end.

(** ** checkUrl *)

Inductive Status : Type := valid | novalid | timeout.

Record ProbeResult : Type := mkResult { status : Status; details : jsstring }.

Definition structure_mismatch : ProbeResult :=
  mkResult novalid (str "json but structure mismatch").

(** The body of the inner [try]: parse and look for the first record. *)
Definition check_json (text : jsstring) : Completion ProbeResult :=
  let* j := JSON_parse text in
  if truthy (Some j) then
    let* embedded := Get (Some j) (str "_embedded") in
    if truthy embedded then
      let* records := Get embedded (str "records") in
      match records with
      | Some (JArray (r :: _)) =>
        let* asset := Get (Some r) (str "asset") in
        if truthy asset then
          let* amount := Get (Some r) (str "amount") in
          if truthy amount then
            let* shown := ToString amount in
            Normal (mkResult valid (str "amount=" ++ shown))
          else Normal structure_mismatch
        else Normal structure_mismatch
      | _ => Normal structure_mismatch
      end
    else Normal structure_mismatch
  else Normal structure_mismatch.

Definition checkUrl (net : jsstring -> NetBehaviour) (url : jsstring)
  : Completion ProbeResult :=
  try_catch
    (let* res := fetchWithTimeout net url TIMEOUT_MS in
     if negb (res_ok res) then
       Normal (mkResult novalid (str "HTTP " ++ N_toString (res_status res)))
     else
       let* text := res_text res in
       if includes text (str "_embedded") && includes text (str "records") then
         try_catch (check_json text)
           (fun _ => Normal (mkResult novalid (str "non-json response")))
       else
         Normal (mkResult novalid (str "no _embedded/records in response")))
    (fun err =>
       if jsstring_eqb (name err) (str "AbortError") then
         Normal (mkResult timeout (str "fetch timeout"))
       else
         Normal (mkResult timeout
                   (match message err with
                    | [] => Error_toString err
                    | _ :: _ => message err
                    end))).

(** ** The input loader *)

(** [s.split(/\r?\n/)]: a line feed, with the carriage return before it if
    there is one, separates two pieces. *)
Fixpoint split_lines (s : jsstring) : list jsstring :=
  match s with
  | [] => [[]]
  | c :: rest =>
    let pieces := split_lines rest in
    if c =? 10 then [] :: pieces
    else if (c =? 13) && match rest with d :: _ => d =? 10 | [] => false end
    then pieces
    else match pieces with
         | piece :: others => (c :: piece) :: others
         | [] => [[c]]
         end
  end.

(** White space and line terminators, which [trim] strips. *)
Definition is_space (c : N) : bool :=
  in_range 9 13 c || (c =? 32) || (c =? 0xA0) || (c =? 0x1680) ||
  in_range 0x2000 0x200A c || (c =? 0x2028) || (c =? 0x2029) ||
  (c =? 0x202F) || (c =? 0x205F) || (c =? 0x3000) || (c =? 0xFEFF).

Fixpoint trimStart (s : jsstring) : jsstring :=
  match s with
  | c :: rest => if is_space c then trimStart rest else s
  | [] => []
  end.

Definition trim (s : jsstring) : jsstring := rev (trimStart (rev (trimStart s))).

Definition nonempty (s : jsstring) : bool :=
  match s with [] => false | _ :: _ => true end.

(** [raw.split(/\r?\n/).map(s => s.trim()).filter(Boolean)] *)
Definition read_lines (raw : jsstring) : list jsstring :=
  List.filter nonempty (map trim (split_lines raw)).

(** ** Files *)

Definition readFile (fs : gmap string jsstring) (file : string) : option jsstring :=
  fs !! file.

Definition writeFile (file : string) (data : jsstring) (fs : gmap string jsstring)
  : gmap string jsstring :=
  <[file := data]> fs.

Definition appendFile (file : string) (data : jsstring) (fs : gmap string jsstring)
  : gmap string jsstring :=
  <[file := default [] (fs !! file) ++ data]> fs.

Definition LF : jsstring := [10].

(** ** The driver: the two nested loops of main *)

Record Stats : Type := mkStats { n_valid : N; n_novalid : N; n_timeout : N }.

(** What a run has done so far, oldest first (not program state): every
    call of [checkUrl] with what it gave, and every line appended, with the
    server whose iteration did it. *)
Inductive Event : Type :=
| Probed (server wallet url : jsstring) (outcome : Completion ProbeResult)
| Appended (server : jsstring) (file : string) (line : jsstring).

Record State : Type := mkState {
  files : gmap string jsstring;
  validList : list jsstring;
  stats : Stats;
  log : list Event
}.

Definition is_probe (ev : Event) : bool :=
  match ev with Probed _ _ _ _ => true | Appended _ _ _ => false end.

Definition probes_issued (st : State) : nat :=
  length (List.filter is_probe (log st)).

(** Where control is: at the test of the outer loop, at the test of the inner
    loop (with the [server] of the iteration), after the loops, or gone to
    [main().catch] with an exception.  [serverHadValid] only chooses a
    console message and is left out. *)
Inductive Pc : Type :=
| AtServer (i : nat)
| AtWallet (i : nat) (server : jsstring) (j : nat)
| Finished
| Crashed (err : JsError).

Definition append (server : jsstring) (file : string) (line : jsstring) (st : State)
  : State :=
  mkState (appendFile file line (files st)) (validList st) (stats st)
          (log st ++ [Appended server file line]).

Definition record_probe (ev : Event) (st : State) : State :=
  mkState (files st) (validList st) (stats st) (log st ++ [ev]).

Definition push_valid (server : jsstring) (st : State) : State :=
  mkState (files st) (validList st ++ [server]) (stats st) (log st).

Definition bump (s : Status) (st : State) : State :=
  let '(v, n, t) := (n_valid (stats st), n_novalid (stats st), n_timeout (stats st)) in
  mkState (files st) (validList st)
    (match s with
     | valid => mkStats (v + 1) n t
     | novalid => mkStats v (n + 1) t
     | timeout => mkStats v n (t + 1)
     end) (log st).

Section Driver.

Variables servers wallets : list jsstring.
(** The network: what the [n]-th probe of the run, to [url], meets. *)
Variable net : nat -> jsstring -> NetBehaviour.

Definition step (c : Pc * State) : option (Pc * State) :=
  let '(pc, st) := c in
  match pc with
  | AtServer i =>
    match servers !! i with
    | None => Some (Finished, st)
    | Some server =>
      if bool_decide (server ∈ validList st) then Some (AtServer (S i), st)
      else Some (AtWallet i server 0, st)
    end
  | AtWallet i server j =>
    match wallets !! j with
    | None => Some (AtServer (S i), st)
    | Some wallet =>
      match buildUrl server wallet with
      | Throw e => Some (Crashed e, st)
      | Normal url =>
        let outcome := checkUrl (net (probes_issued st)) url in
        let st := record_probe (Probed server wallet url outcome) st in
        match outcome with
        | Throw e => Some (Crashed e, st)
        | Normal result =>
          match status result with
          | valid =>
            let st := append server "valid.txt" (server ++ LF) st in
            let st := push_valid server st in
            let st := bump valid st in
            Some (AtServer (S i), st)
          | novalid =>
            let st := append server "novalid.txt"
                        (server ++ str "|" ++ wallet ++ str "|" ++ details result
                                ++ LF) st in
            let st := bump novalid st in
            Some (AtWallet i server (S j), st)
          | timeout =>
            let st := append server "timeout.txt"
                        (server ++ str "|" ++ details result
                                ++ LF) st in
            let st := bump timeout st in
            Some (AtWallet i server (S j), st)
          end
        end
      end
    end
  | Finished | Crashed _ => None
  end.

Fixpoint run (fuel : nat) (c : Pc * State) : Pc * State :=
  match fuel with
  | O => c
  | S fuel =>
    match step c with
    | Some c' => run fuel c'
    | None => c
    end
  end.

(** Steps that are always enough to leave both loops. *)
Definition enough : nat := length servers * (length wallets + 2) + 1.

End Driver.

(** ** main *)

Inductive SetupError : Type :=
| MissingFile (file : string)
| EmptyList (file : string).

(** How the process ends: [process.exit(1)] during set-up, with the files as
    they are then; or after the loops were entered, with the lists read and
    the last configuration. *)
Inductive Run : Type :=
| SetupFailed (why : SetupError) (fs : gmap string jsstring)
| Ran (servers wallets : list jsstring) (c : Pc * State).

(** The valid list as [main] loads it: empty when [valid.txt] cannot be
    read. *)
Definition load_validList (fs : gmap string jsstring) : list jsstring :=
  match readFile fs "valid.txt" with
  | Some existing => read_lines existing
  | None => []
  end.

(** Everything before the loops: the lists read, and the state the loops
    start in. *)
Definition setup (fs : gmap string jsstring)
  : SetupError * gmap string jsstring + list jsstring * list jsstring * State :=
  match readFile fs SERVERS_FILE with
  | None => inl (MissingFile SERVERS_FILE, fs)
  | Some serversRaw =>
    match readFile fs WALLETS_FILE with
    | None => inl (MissingFile WALLETS_FILE, fs)
    | Some walletsRaw =>
      let servers := read_lines serversRaw in
      let wallets := read_lines walletsRaw in
      if bool_decide (length servers = 0%nat) then inl (EmptyList SERVERS_FILE, fs)
      else if bool_decide (length wallets = 0%nat) then inl (EmptyList WALLETS_FILE, fs)
      else
        let validList := load_validList fs in
        let fs := writeFile "novalid.txt" [] fs in
        let fs := writeFile "timeout.txt" [] fs in
        inr (servers, wallets, mkState fs validList (mkStats 0 0 0) [])
    end
  end.

Definition main (fs : gmap string jsstring) (net : nat -> jsstring -> NetBehaviour)
  : Run :=
  match setup fs with
  | inl (why, fs) => SetupFailed why fs
  | inr (servers, wallets, st) =>
    Ran servers wallets
        (run servers wallets net (enough servers wallets) (AtServer 0, st))
  end.

Definition exit_code (r : Run) : N :=
  match r with
  | SetupFailed _ _ => 1
  | Ran _ _ (Crashed _, _) => 1
  | Ran _ _ _ => 0
  end.

(** ** Notions the claims are stated with *)

(** UTF-16 decoding: the code points of a string, or [None] when a surrogate
    is unpaired. *)
Fixpoint code_points (s : jsstring) : option (list N) :=
  match s with
  | [] => Some []
  | c :: rest =>
    if is_high_surrogate c then
      match rest with
      | d :: rest' =>
        if is_low_surrogate d then
          cons ((c - 0xD800) * 0x400 + (d - 0xDC00) + 0x10000) <$> code_points rest'
        else None
      | [] => None
      end
    else if is_low_surrogate c then None
    else cons c <$> code_points rest
  end.

(** Percent-encoding of one code point: itself when unreserved, else the
    bytes of its UTF-8 encoding as [%XX]. *)
Definition percent_encoding (cp : N) : jsstring :=
  if uri_unreserved cp then [cp] else percent_encode cp.

(** The request has not settled when the timer of [fetchWithTimeout] fires. *)
Definition times_out (b : NetBehaviour) : bool :=
  match b with
  | Responds t _ | Fails t _ => TIMEOUT_MS <=? t
  | Hangs => true
  end.

(** The first element of a non-empty [_embedded.records] array. *)
Definition first_record (j : json) : option json :=
  match j with
  | JObject ms =>
    match own_property (str "_embedded") ms with
    | Some (JObject es) =>
      match own_property (str "records") es with
      | Some (JArray (r :: _)) => Some r
      | _ => None
      end
    | _ => None
    end
  | _ => None
  end.

Definition field (k : string) (r : json) : option json :=
  match r with
  | JObject ms => own_property (str k) ms
  | _ => None
  end.

(** The shape C1 and C8 speak of: a non-empty [_embedded.records] array whose
    first record has an [asset] field and an [amount] field. *)
Definition has_asset_and_amount (j : json) : bool :=
  match first_record j with
  | Some r => bool_decide (is_Some (field "asset" r) /\ is_Some (field "amount" r))
  | None => false
  end.

(** The variant of [checkUrl] C9 compares with: the same, without the test
    for the two substrings before parsing. *)
Definition checkUrl_direct (net : jsstring -> NetBehaviour) (url : jsstring)
  : Completion ProbeResult :=
  try_catch
    (let* res := fetchWithTimeout net url TIMEOUT_MS in
     if negb (res_ok res) then
       Normal (mkResult novalid (str "HTTP " ++ N_toString (res_status res)))
     else
       let* text := res_text res in
       try_catch (check_json text)
         (fun _ => Normal (mkResult novalid (str "non-json response"))))
    (fun err =>
       if jsstring_eqb (name err) (str "AbortError") then
         Normal (mkResult timeout (str "fetch timeout"))
       else
         Normal (mkResult timeout
                   (match message err with
                    | [] => Error_toString err
                    | _ :: _ => message err
                    end))).

(** A text written with ['] where it has the double quote. *)
Definition quoted (s : string) : jsstring :=
  map (fun c => if c =? 39 then 34 else c) (str s).

(** A response that arrives at once, with a status and a body. *)
Definition replies (code : N) (body : string) : jsstring -> NetBehaviour :=
  fun _ => Responds 0 (mkResponse code (Normal (quoted body))).

(** [c'] is a configuration the loops get to from [c]. *)
Inductive reaches (servers wallets : list jsstring)
    (net : nat -> jsstring -> NetBehaviour) : Pc * State -> Pc * State -> Prop :=
| reaches_here c : reaches servers wallets net c c
| reaches_step c c' c'' :
    reaches servers wallets net c c' ->
    step servers wallets net c' = Some c'' ->
    reaches servers wallets net c c''.

(** [c] is a point of the run of [main] on the files [fs] against [net], the
    lists read being [servers] and [wallets]. *)
Definition in_run (fs : gmap string jsstring) (net : nat -> jsstring -> NetBehaviour)
    (servers wallets : list jsstring) (c : Pc * State) : Prop :=
  exists st, setup fs = inr (servers, wallets, st) /\
             reaches servers wallets net (AtServer 0, st) c.

(** The event is a probe of [server]. *)
Definition probes (server : jsstring) (ev : Event) : Prop :=
  match ev with
  | Probed s _ _ _ => s = server
  | Appended _ _ _ => False
  end.

(** The event is a probe of [server] or a line appended for it. *)
Definition touches (server : jsstring) (ev : Event) : Prop :=
  match ev with
  | Probed s _ _ _ | Appended s _ _ => s = server
  end.

(** The event is a probe of [server] that was classified [valid]. *)
Definition finds_valid (server : jsstring) (ev : Event) : Prop :=
  match ev with
  | Probed s _ _ (Normal r) => s = server /\ status r = valid
  | _ => False
  end.

Definition total (s : Stats) : N := n_valid s + n_novalid s + n_timeout s.

(** An upper bound on the steps left. *)
Definition steps_left (servers wallets : list jsstring) (pc : Pc) : nat :=
  match pc with
  | AtServer i => (length servers - i) * (length wallets + 2) + 1
  | AtWallet i _ j =>
    (length servers - S i) * (length wallets + 2) + (length wallets - j) + 2
  | Finished | Crashed _ => 0
  end.

(** The contents of [valid.txt], nothing when there is no such file. *)
Definition valid_txt (fs : gmap string jsstring) : jsstring :=
  default [] (fs !! "valid.txt").

(** The text is empty or ends with a line feed. *)
Definition complete (content : jsstring) : Prop :=
  content = [] \/ exists c, content = c ++ LF.

(** A required input file cannot be used: it is missing, or no line is left
    of it after trimming and dropping the blank ones. *)
Definition unusable (fs : gmap string jsstring) (file : string) : Prop :=
  match readFile fs file with
  | None => True
  | Some raw => read_lines raw = []
  end.

(** Nothing to strip at either end. *)
Definition trimmed (s : jsstring) : Prop :=
  trimStart s = s /\ trimStart (rev s) = rev s.

(** The facts about a run that the claims on skipping rest on; [known] is the
    valid list the loops start with. *)
Record skipping (known : list jsstring) (c : Pc * State) : Prop := {
  known_kept : forall s, s ∈ known -> s ∈ validList c.2;
  current_unknown : forall i s j, c.1 = AtWallet i s j -> s ∉ validList c.2;
  found_listed : forall s ev, ev ∈ log c.2 -> finds_valid s ev -> s ∈ validList c.2;
  known_untouched : forall s ev, ev ∈ log c.2 -> touches s ev -> s ∉ known;
  valid_is_last : forall m n ev ev' s,
    (m < n)%nat -> log c.2 !! m = Some ev -> log c.2 !! n = Some ev' ->
    finds_valid s ev -> ~ probes s ev'
}.


(** ** Worlds to run the program in *)

Definition lines (ls : list string) : jsstring :=
  flat_map (fun l => str l ++ LF) ls.

Definition good_body : string :=
  "{'_embedded':{'records':[{'asset':'native','amount':'5'}]}}".

(** Two servers, the second already in [valid.txt], and two wallets; the
    first probe finds no record and the later ones find one. *)
Definition example_files : gmap string jsstring :=
  <[SERVERS_FILE := lines ["a.example"; "b.example:8080"]]>
    (<[WALLETS_FILE := lines ["W1"; "W2"]]>
       (<["valid.txt"%string := lines ["b.example:8080"]]> ∅)).

Definition example_net (n : nat) : jsstring -> NetBehaviour :=
  match n with
  | O => replies 200 "{'_embedded':{'records':[]}}"
  | S _ => replies 200 good_body
  end.

Definition example_servers : list jsstring := [str "a.example"; str "b.example:8080"].
Definition example_wallets : list jsstring := [str "W1"; str "W2"].

Definition example_start : State :=
  mkState (writeFile "timeout.txt" [] (writeFile "novalid.txt" [] example_files))
          [str "b.example:8080"] (mkStats 0 0 0) [].

(** The run after [n] steps, and at its end. *)
Definition example_at (n : nat) : Pc * State :=
  run example_servers example_wallets example_net n (AtServer 0, example_start).

Definition example_end : Pc * State :=
  example_at (enough example_servers example_wallets).

Definition example_url : jsstring :=
  str "http://a.example:31401/claimable_balances?claimant=W2".

Definition example_valid_probe : Event :=
  Probed (str "a.example") (str "W2") example_url
         (Normal (mkResult valid (str "amount=5"))).


Definition good_net (n : nat) : jsstring -> NetBehaviour := replies 200 good_body.


(** The text left after a parsed item is shorter than the text it was read
    from. *)
Definition shrinks {A} (s : jsstring) (c : Completion (A * jsstring)) : Prop :=
  forall v rest, c = Normal (v, rest) -> (length rest < length s)%nat.

(** ** Notions the further properties are stated with *)

(** A response that can be read came in time: before the timer fired, and
    with an error status or a body whose text could be read. *)
Definition readable (b : NetBehaviour) : Prop :=
  exists t res, b = Responds t res /\ t < TIMEOUT_MS /\
    (res_ok res = false \/ exists text, res_text res = Normal text).

(** The fixed details of a [novalid] result. *)
Definition novalid_reasons : list jsstring :=
  [str "json but structure mismatch"; str "non-json response";
   str "no _embedded/records in response"].

(** The characters [encodeURIComponent] can give: the unreserved ones and
    the percent sign of an escape. *)
Definition uri_safe (c : N) : bool := uri_unreserved c || (c =? 37).

(** A UTF-16 code unit, as every element of a JavaScript string is. *)
Definition code_unit (c : N) : Prop := c < 0x10000.

(** A line as the loader gives them: nothing to trim, not empty, no line
    feed. *)
Definition clean (s : jsstring) : Prop := trimmed s /\ s <> [] /\ 10 ∉ s.

(** [l] is a contiguous part of [raw]. *)
Definition part_of (l raw : jsstring) : Prop := exists pre post, raw = pre ++ l ++ post.

(** The file and the line that [main] writes for a probe. *)
Definition line_for (server wallet : jsstring) (r : ProbeResult) : string * jsstring :=
  match status r with
  | valid => ("valid.txt"%string, server ++ LF)
  | novalid => ("novalid.txt"%string,
                server ++ str "|" ++ wallet ++ str "|" ++ details r ++ LF)
  | timeout => ("timeout.txt"%string, server ++ str "|" ++ details r ++ LF)
  end.

(** A probe as the log has it: the call and the line. *)
Definition entry (p : jsstring * jsstring * jsstring * ProbeResult) : list Event :=
  let '(server, wallet, url, r) := p in
  [Probed server wallet url (Normal r);
   Appended server (line_for server wallet r).1 (line_for server wallet r).2].

(** The state after a probe of [server] and [wallet] that gave [r]. *)
Definition after_probe (server wallet url : jsstring) (r : ProbeResult) (st : State)
  : State :=
  mkState (appendFile (line_for server wallet r).1 (line_for server wallet r).2
                      (files st))
          (match status r with
           | valid => validList st ++ [server]
           | _ => validList st
           end)
          (stats (bump (status r) st))
          (log st ++ entry (server, wallet, url, r)).

(** How many probes there can have been when control is at [pc]. *)
Definition probes_bound (servers wallets : list jsstring) (pc : Pc) (p : nat) : Prop :=
  match pc with
  | AtServer i => (i <= length servers /\ p <= i * length wallets)%nat
  | AtWallet i _ j =>
    (i < length servers /\ j <= length wallets /\ p <= i * length wallets + j)%nat
  | Finished | Crashed _ => (p <= length servers * length wallets)%nat
  end.

(** Why a run can crash: a wallet that is not well-formed UTF-16. *)
Definition crash_cause (wallets : list jsstring) (pc : Pc) : Prop :=
  match pc with
  | Crashed e => e = URIError /\ exists w, w ∈ wallets /\ code_points w = None
  | _ => True
  end.

(** What the log says was appended to [file], in order. *)
Definition written (file : string) (evs : list Event) : jsstring :=
  flat_map (fun ev => match ev with
                      | Appended _ f line => if String.eqb f file then line else []
                      | Probed _ _ _ _ => []
                      end) evs.

(** The probe was given the status [s]. *)
Definition has_status (s : Status) (p : jsstring * jsstring * jsstring * ProbeResult)
  : bool :=
  match s, status p.2 with
  | valid, valid | novalid, novalid | timeout, timeout => true
  | _, _ => false
  end.

(** How many of the probes were given the status [s]. *)
Definition count_status (s : Status)
    (ps : list (jsstring * jsstring * jsstring * ProbeResult)) : N :=
  N.of_nat (length (List.filter (has_status s) ps)).

(** The state of a run is what its probes [ps] make it: the log is their
    entries, each counter counts the probes of its status, and the valid list
    is the one loaded followed by the servers found valid. *)
Definition accounted (known : list jsstring)
    (ps : list (jsstring * jsstring * jsstring * ProbeResult)) (st : State) : Prop :=
  log st = flat_map entry ps /\
  stats st = mkStats (count_status valid ps) (count_status novalid ps)
                     (count_status timeout ps) /\
  validList st = known ++ map (fun p => p.1.1.1) (List.filter (has_status valid) ps).

(** The files are what the log says: the two files truncated at the start
    hold the lines appended since, [valid.txt] holds what it held and the
    lines appended, and no other file has changed. *)
Definition files_match_log (fs : gmap string jsstring) (st : State) : Prop :=
  files st !! "novalid.txt" = Some (written "novalid.txt" (log st)) /\
  files st !! "timeout.txt" = Some (written "timeout.txt" (log st)) /\
  valid_txt (files st) = valid_txt fs ++ written "valid.txt" (log st) /\
  forall file, file <> "valid.txt"%string -> file <> "novalid.txt"%string ->
               file <> "timeout.txt"%string -> files st !! file = fs !! file.

(** Every probe is of a listed server and a listed wallet, at the URL
    [buildUrl] gives for them, and the [k]-th one has the result [checkUrl]
    gives against what the network does for the [k]-th request. *)
Definition genuine (servers wallets : list jsstring)
    (net : nat -> jsstring -> NetBehaviour)
    (ps : list (jsstring * jsstring * jsstring * ProbeResult)) : Prop :=
  forall k s w u r, ps !! k = Some (s, w, u, r) ->
    s ∈ servers /\ w ∈ wallets /\ buildUrl s w = Normal u /\
    checkUrl (net k) u = Normal r.

(** The number of line feeds in a text. *)
Definition line_feeds (s : jsstring) : N :=
  N.of_nat (length (List.filter (N.eqb 10) s)).

(** The server has been dealt with: it is in the valid list, or every wallet
    has been probed for it and none of those probes was valid. *)
Definition settled (wallets : list jsstring) (st : State) (s : jsstring) : Prop :=
  s ∈ validList st \/
  forall w, w ∈ wallets ->
    exists u r, Probed s w u (Normal r) ∈ log st /\ status r <> valid.

(** How far a run has got. *)
Definition progress (servers wallets : list jsstring) (c : Pc * State) : Prop :=
  match c.1 with
  | AtServer i =>
    forall i' s, (i' < i)%nat -> servers !! i' = Some s -> settled wallets c.2 s
  | AtWallet i s j =>
    servers !! i = Some s /\
    (forall i' s', (i' < i)%nat -> servers !! i' = Some s' -> settled wallets c.2 s') /\
    forall j' w, (j' < j)%nat -> wallets !! j' = Some w ->
      exists u r, Probed s w u (Normal r) ∈ log c.2 /\ status r <> valid
  | Finished => forall s, s ∈ servers -> settled wallets c.2 s
  | Crashed _ => True
  end.

(** The servers a run adds to the valid list. *)
Definition additions (servers known : list jsstring) (c : Pc * State) : Prop :=
  (forall i s j, c.1 = AtWallet i s j -> (s ∉ validList c.2) /\ (s ∈ servers)) /\
  exists found, validList c.2 = known ++ found /\ NoDup found /\
    forall s, s ∈ found -> (s ∉ known) /\ (s ∈ servers).

(** The pairs of server and wallet probed, in the order of the log. *)
Definition probed_pairs (evs : list Event) : list (jsstring * jsstring) :=
  flat_map (fun ev => match ev with
                      | Probed s w _ _ => [(s, w)]
                      | Appended _ _ _ => []
                      end) evs.

(** Every server with every wallet, servers first. *)
Definition grid (servers wallets : list jsstring) : list (jsstring * jsstring) :=
  flat_map (fun s => map (pair s) wallets) servers.

(** The part of the grid the loops have passed. *)
Definition passed (servers wallets : list jsstring) (pc : Pc)
  : option (list (jsstring * jsstring)) :=
  match pc with
  | AtServer i => Some (grid (take i servers) wallets)
  | AtWallet i s j =>
    if bool_decide (servers !! i = Some s)
    then Some (grid (take i servers) wallets ++ map (pair s) (take j wallets))
    else None
  | Finished | Crashed _ => Some (grid servers wallets)
  end.

(** The pairs probed so far are among the cells passed, in their order. *)
Definition in_order (servers wallets : list jsstring) (c : Pc * State) : Prop :=
  exists cells, passed servers wallets c.1 = Some cells /\
                sublist (probed_pairs (log c.2)) cells.

(** [st'] is [st] with more appended: every file holds what it held followed
    by more, the valid list and the log have only grown at their ends, and
    no counter has gone down. *)
Definition extends (st st' : State) : Prop :=
  (forall file content, files st !! file = Some content ->
     exists more, files st' !! file = Some (content ++ more)) /\
  (exists found, validList st' = validList st ++ found) /\
  (exists evs, log st' = log st ++ evs) /\
  n_valid (stats st) <= n_valid (stats st') /\
  n_novalid (stats st) <= n_novalid (stats st') /\
  n_timeout (stats st) <= n_timeout (stats st').

(** * Properties *)

Example buildUrl_example :
  buildUrl (str "1.2.3.4") (str "GA B/c") =
  Normal (str "http://1.2.3.4:31401/claimable_balances?claimant=GA%20B%2Fc") /\
  buildUrl (str "node.example:8080") [0x47; 0xE9; 0xD83D; 0xDE00] =
  Normal (str "http://node.example:8080/claimable_balances?claimant=G%C3%A9%F0%9F%98%80").
Proof. split; vm_compute; reflexivity. Qed.

(** [String(x)] for the numbers written as [m * 10^e]. *)
Example Number_toString_examples :
  map (fun '(m, e) => Number_toString (Number_of_decimal false m e))
      [(5, 0); (15, -1); (1, -1); (100, 0); (50000000, -7); (1, 21);
       (123456789012345678901, 0); (1, -6); (1, -7); (25, -8); (1, 23);
       (123456789123456789, -9); (30000000000000004, -17);
       (9007199254740993, 0); (17976931348623157, 292);
       (22250738585072014, -324); (5, -324); (3, -324); (2, -324); (1, 400)]%Z
  = map str ["5"; "1.5"; "0.1"; "100"; "5"; "1e+21";
             "123456789012345680000"; "0.000001"; "1e-7"; "2.5e-7"; "1e+23";
             "123456789.12345679"; "0.30000000000000004";
             "9007199254740992"; "1.7976931348623157e+308";
             "2.2250738585072014e-308"; "5e-324"; "5e-324"; "0"; "Infinity"]%string.
Proof. vm_compute. reflexivity. Qed.

Example JSON_parse_examples :
  JSON_parse (quoted " { 'a' : [1, true, null, 'x\u0041\n'], 'a' : {} } ")
  = Normal (JObject [(str "a", JArray [JNumber (NumFinite false (2 ^ 52) (-52));
                                       JBool true; JNull; JString [120; 65; 10]]);
                     (str "a", JObject [])]) /\
  JSON_parse (str "[1,]") = Throw SyntaxError /\
  JSON_parse (str "01") = Throw SyntaxError /\
  JSON_parse (str "{} x") = Throw SyntaxError /\
  JSON_parse (str "-0.0e5") = Normal (JNumber NumZero).
Proof. repeat split; vm_compute; reflexivity. Qed.

Example read_lines_example :
  read_lines ([32] ++ str "a.example" ++ [13; 10; 10; 9; 10] ++ str "b:80" ++ [13])
  = [str "a.example"; str "b:80"].
Proof. vm_compute. reflexivity. Qed.

(** ** buildUrl *)

Lemma unreserved_not_surrogate c :
  uri_unreserved c = true -> is_high_surrogate c = false /\ is_low_surrogate c = false.
Proof.
  unfold uri_unreserved, is_high_surrogate, is_low_surrogate, in_range.
  intros H. simpl in H.
  repeat (apply orb_prop in H; destruct H as [H|H]);
    try (apply andb_prop in H; destruct H as [H1 H2]);
    split; apply andb_false_iff; lia.
Qed.

Lemma high_not_low c : is_high_surrogate c = true -> is_low_surrogate c = false.
Proof.
  unfold is_high_surrogate, is_low_surrogate, in_range. intros H.
  apply andb_prop in H. apply andb_false_iff. lia.
Qed.

Lemma pair_not_unreserved c d :
  uri_unreserved ((c - 0xD800) * 0x400 + (d - 0xDC00) + 0x10000) = false.
Proof.
  unfold uri_unreserved, in_range. simpl. 
  repeat (apply orb_false_iff; split); try (apply andb_false_iff); lia.
Qed.

Lemma percent_encoding_unreserved c :
  uri_unreserved c = true -> percent_encoding c = [c].
Proof. unfold percent_encoding. intros ->. reflexivity. Qed.

Lemma percent_encoding_reserved c :
  uri_unreserved c = false -> percent_encoding c = percent_encode c.
Proof. unfold percent_encoding. intros ->. reflexivity. Qed.

Lemma encodeURIComponent_code_points_len n : forall wallet cps,
  (length wallet <= n)%nat ->
  code_points wallet = Some cps ->
  encodeURIComponent wallet = Normal (flat_map percent_encoding cps).
Proof.
  induction n as [|n IH]; intros [|c rest] cps Hlen H; simpl in *;
    try lia; try (injection H as <-; reflexivity).
  destruct (uri_unreserved c) eqn:U.
  - destruct (unreserved_not_surrogate c U) as [Hh Hl].
    rewrite Hh, Hl in H.
    destruct (code_points rest) as [cps'|] eqn:E; simpl in H; [|discriminate].
    injection H as <-.
    rewrite (IH rest cps'); [|lia|exact E].
    cbn [bind flat_map]. rewrite (percent_encoding_unreserved c U). reflexivity.
  - destruct (is_high_surrogate c) eqn:Hh.
    + rewrite (high_not_low c Hh).
      destruct rest as [|d rest']; [discriminate|].
      destruct (is_low_surrogate d); [|discriminate].
      destruct (code_points rest') as [cps'|] eqn:E; simpl in H; [|discriminate].
      injection H as <-. simpl in Hlen.
      rewrite (IH rest' cps'); [|lia|exact E].
      cbn [bind flat_map].
      rewrite (percent_encoding_reserved _ (pair_not_unreserved c d)). reflexivity.
    + destruct (is_low_surrogate c); [discriminate|].
      destruct (code_points rest) as [cps'|] eqn:E; simpl in H; [|discriminate].
      injection H as <-.
      rewrite (IH rest cps'); [|lia|exact E].
      cbn [bind flat_map]. rewrite (percent_encoding_reserved c U). reflexivity.
Qed.

Lemma encodeURIComponent_ill_formed_len n : forall wallet,
  (length wallet <= n)%nat ->
  code_points wallet = None ->
  encodeURIComponent wallet = Throw URIError.
Proof.
  induction n as [|n IH]; intros [|c rest] Hlen H; simpl in *;
    try lia; try discriminate.
  destruct (uri_unreserved c) eqn:U.
  - destruct (unreserved_not_surrogate c U) as [Hh Hl].
    rewrite Hh, Hl in H.
    destruct (code_points rest) as [cps'|] eqn:E; simpl in H; [discriminate|].
    rewrite (IH rest); simpl; [reflexivity|lia|exact E].
  - destruct (is_high_surrogate c) eqn:Hh.
    + rewrite (high_not_low c Hh).
      destruct rest as [|d rest']; [reflexivity|].
      destruct (is_low_surrogate d); [|reflexivity].
      destruct (code_points rest') as [cps'|] eqn:E; simpl in H; [discriminate|].
      simpl in Hlen. rewrite (IH rest'); simpl; [reflexivity|lia|exact E].
    + destruct (is_low_surrogate c); [reflexivity|].
      destruct (code_points rest) as [cps'|] eqn:E; simpl in H; [discriminate|].
      rewrite (IH rest); simpl; [reflexivity|lia|exact E].
Qed.

Lemma encodeURIComponent_code_points wallet cps :
  code_points wallet = Some cps ->
  encodeURIComponent wallet = Normal (flat_map percent_encoding cps).
Proof. apply (encodeURIComponent_code_points_len (length wallet)), le_n. Qed.

Lemma encodeURIComponent_ill_formed wallet :
  code_points wallet = None -> encodeURIComponent wallet = Throw URIError.
Proof. apply (encodeURIComponent_ill_formed_len (length wallet)), le_n. Qed.

(** C5, as amended.  For every server and every wallet that is well-formed
    UTF-16 (no unpaired surrogate), [buildUrl] returns
    [http://<host>/claimable_balances?claimant=<encoded-wallet>]: the host is
    the server itself when it contains a colon and the server followed by
    [:31401] otherwise, and the encoded wallet is the percent-encoding of the
    wallet's code points.  On any other wallet it throws [URIError]. *)
Theorem buildUrl_well_formed (server wallet : jsstring) :
  (forall cps, code_points wallet = Some cps ->
     buildUrl server wallet =
     Normal (str "http://"
             ++ (if includes server (str ":") then server
                 else server ++ str ":31401")
             ++ str "/claimable_balances?claimant="
             ++ flat_map percent_encoding cps)) /\
  (code_points wallet = None -> buildUrl server wallet = Throw URIError).
Proof.
  unfold buildUrl. split.
  - intros cps H. rewrite (encodeURIComponent_code_points wallet cps H).
    cbn [bind]. destruct (includes server (str ":")); reflexivity.
  - intros H. rewrite (encodeURIComponent_ill_formed wallet H). reflexivity.
Qed.

Lemma buildUrl_well_formed_witness :
  code_points (str "GA B") = Some [71; 65; 32; 66] /\
  buildUrl (str "10.0.0.1") (str "GA B") =
  Normal (str "http://10.0.0.1:31401/claimable_balances?claimant=GA%20B").
Proof.
  split; [reflexivity|].
  exact (proj1 (buildUrl_well_formed (str "10.0.0.1") (str "GA B")) _ eq_refl).
Defined.

(** C5 as stated fails: a wallet holding an unpaired surrogate makes
    [encodeURIComponent], and so [buildUrl], throw. *)
Lemma buildUrl_unpaired_surrogate :
  buildUrl (str "10.0.0.1") [0xD800] = Throw URIError.
Proof. reflexivity. Qed.


(** ** JSON.parse is total: the fuel never runs out *)

Lemma skip_ws_length s : (length (skip_ws s) <= length s)%nat.
Proof.
  induction s as [|c s IH]; simpl; [lia|].
  destruct (is_ws c); simpl; lia.
Qed.

Lemma skip_ws_cons s c rest :
  skip_ws s = c :: rest -> (length rest < length s)%nat.
Proof. intros H. pose proof (skip_ws_length s) as L. rewrite H in L. simpl in L. lia. Qed.

Lemma parse_string_length s : forall t r,
  parse_string s = Normal (t, r) -> (length r < length s)%nat.
Proof.
  induction s as [s IH] using (induction_ltof1 _ (@length N)). unfold ltof in IH.
  intros t r. destruct s as [|c rest]; simpl; [discriminate|].
  destruct (c =? 34); [intros [= _ <-]; lia|].
  destruct (c =? 92).
  - destruct rest as [|e rest1]; [discriminate|].
    destruct (e =? 117).
    + destruct rest1 as [|h1 [|h2 [|h3 [|h4 rest2]]]]; try discriminate.
      destruct (hex4 h1 h2 h3 h4); [|discriminate].
      destruct (parse_string rest2) as [[t' r']|] eqn:E; [|discriminate].
      apply IH in E; [|simpl; lia]. cbn [bind]. intros [= _ <-]. simpl. lia.
    + destruct (simple_escape e); [|discriminate].
      destruct (parse_string rest1) as [[t' r']|] eqn:E; [|discriminate].
      apply IH in E; [|simpl; lia]. cbn [bind]. intros [= _ <-]. simpl. lia.
  - destruct (c <? 32); [discriminate|].
    destruct (parse_string rest) as [[t' r']|] eqn:E; [|discriminate].
    apply IH in E; [|simpl; lia]. cbn [bind]. intros [= _ <-]. lia.
Qed.

Lemma take_digits_length s : forall acc cnt,
  (length (take_digits s acc cnt).2 <= length s)%nat.
Proof.
  induction s as [|c s IH]; intros acc cnt; simpl; [lia|].
  destruct (is_digit c); simpl; [|lia].
  specialize (IH (10 * acc + Z.of_N (c - 48))%Z (cnt + 1)%Z). lia.
Qed.

Lemma parse_number_length s x r :
  parse_number s = Normal (x, r) -> (length r < length s)%nat.
Proof.
  unfold parse_number.
  set (p := match s with
            | c :: r => if c =? 45 then (true, r) else (false, s)
            | [] => (false, s)
            end).
  assert (length p.2 <= length s)%nat as L1.
  { subst p. destruct s as [|c s']; simpl; [lia|]. destruct (c =? 45); simpl; lia. }
  destruct p as [neg s1]. simpl in L1.
  destruct s1 as [|c r1]; [discriminate|].
  match goal with |- (let* ' _ := ?a in _) = _ -> _ =>
    assert (forall i s2, a = Normal (i, s2) -> length s2 <= length r1)%nat as L2 end.
  { intros i s2. destruct (c =? 48); [intros [= _ <-]; lia|].
    destruct (is_digit c) eqn:D; [|discriminate].
    simpl. rewrite D.
    pose proof (take_digits_length r1 (10 * 0 + Z.of_N (c - 48))%Z (0 + 1)%Z) as L.
    destruct (take_digits r1 _ _) as [[v n] r']. simpl in L. intros [= _ <-]. exact L. }
  match goal with |- (let* ' _ := ?a in _) = _ -> _ =>
    destruct a as [[int s2]|]; [|discriminate] end.
  specialize (L2 _ _ eq_refl). cbn [bind].
  match goal with |- (let* ' _ := ?a in _) = _ -> _ =>
    assert (forall m fl s3, a = Normal (m, fl, s3) -> length s3 <= length s2)%nat as L3 end.
  { intros m fl s3. destruct s2 as [|c2 r2]; [intros [= _ _ <-]; lia|].
    destruct (c2 =? 46); [|intros [= _ _ <-]; lia].
    pose proof (take_digits_length r2 int 0%Z) as L.
    destruct (take_digits r2 int 0%Z) as [[v n] r']. simpl in L.
    destruct (n =? 0)%Z; [discriminate|]. intros [= _ _ <-]. simpl. lia. }
  match goal with |- (let* ' _ := ?a in _) = _ -> _ =>
    destruct a as [[[m fl] s3]|]; [|discriminate] end.
  specialize (L3 _ _ _ eq_refl). cbn [bind].
  match goal with |- (let* ' _ := ?a in _) = _ -> _ =>
    assert (forall ex s4, a = Normal (ex, s4) -> length s4 <= length s3)%nat as L4 end.
  { intros ex s4. destruct s3 as [|c3 r3]; [intros [= _ <-]; lia|].
    destruct ((c3 =? 101) || (c3 =? 69)); [|intros [= _ <-]; lia].
    set (q := match r3 with
              | d :: r' => if d =? 45 then (true, r')
                           else if d =? 43 then (false, r') else (false, r3)
              | [] => (false, r3)
              end).
    assert (length q.2 <= length r3)%nat as Lq.
    { subst q. destruct r3 as [|d r']; simpl; [lia|].
      destruct (d =? 45); simpl; [lia|]. destruct (d =? 43); simpl; lia. }
    destruct q as [eneg r4]. simpl in Lq.
    pose proof (take_digits_length r4 0%Z 0%Z) as L.
    destruct (take_digits r4 0%Z 0%Z) as [[v n] r']. simpl in L.
    destruct (n =? 0)%Z; [discriminate|]. intros [= _ <-]. simpl. lia. }
  match goal with |- (let* ' _ := ?a in _) = _ -> _ =>
    destruct a as [[ex s4]|]; [|discriminate] end.
  specialize (L4 _ _ eq_refl). cbn [bind].
  intros [= _ <-]. simpl in *. lia.
Qed.

Lemma parse_fuel_enough fuel :
  (forall s, (2 * length s + 1 <= fuel)%nat ->
     exists c, parse_value fuel s = Some c /\ shrinks s c) /\
  (forall s acc, (2 * length s + 2 <= fuel)%nat ->
     exists c, parse_elements fuel s acc = Some c /\ shrinks s c) /\
  (forall s acc, (2 * length s + 2 <= fuel)%nat ->
     exists c, parse_members fuel s acc = Some c /\ shrinks s c).
Proof.
  induction fuel as [|fuel (IHv & IHe & IHm)].
  { repeat split; intros; lia. }
  assert (forall A (s : jsstring) e, shrinks (A := A) s (Throw e)) as Hthrow
    by (intros A s e v rest; discriminate).
  pose (thrown := fun A s e =>
          ex_intro (fun c => Some (Throw e) = Some c /\ shrinks (A := A) s c)
                   (Throw e) (conj eq_refl (Hthrow A s e))).
  split; [|split].
  - intros s Hfuel. cbn [parse_value].
    destruct (skip_ws s) as [|c rest] eqn:Hs; [apply thrown|].
    apply skip_ws_cons in Hs.
    destruct (c =? 123).
    { destruct (skip_ws rest) as [|d rest'] eqn:Hr; [apply thrown|].
      apply skip_ws_cons in Hr.
      destruct (d =? 125).
      - eexists; split; [reflexivity|]. intros v r [= _ <-]. lia.
      - destruct (IHm rest []) as (c' & -> & Hc'); [lia|].
        destruct c' as [[ms r]|e]; eexists; (split; [reflexivity|]).
        + intros v r0 [= _ <-]. specialize (Hc' _ _ eq_refl). lia.
        + intros v r0. discriminate. }
    destruct (c =? 91).
    { destruct (skip_ws rest) as [|d rest'] eqn:Hr; [apply thrown|].
      apply skip_ws_cons in Hr.
      destruct (d =? 93).
      - eexists; split; [reflexivity|]. intros v r [= _ <-]. lia.
      - destruct (IHe rest []) as (c' & -> & Hc'); [lia|].
        destruct c' as [[vs r]|e]; eexists; (split; [reflexivity|]).
        + intros v r0 [= _ <-]. specialize (Hc' _ _ eq_refl). lia.
        + intros v r0. discriminate. }
    destruct (c =? 34).
    { eexists; split; [reflexivity|]. intros v r.
      destruct (parse_string rest) as [[t r']|e] eqn:E; [|discriminate].
      apply parse_string_length in E. intros [= _ <-]. lia. }
    destruct (startsWith (c :: rest) (str "true")).
    { eexists; split; [reflexivity|]. intros v r [= _ <-]. simpl.
      rewrite length_drop. lia. }
    destruct (startsWith (c :: rest) (str "false")).
    { eexists; split; [reflexivity|]. intros v r [= _ <-]. simpl.
      rewrite length_drop. lia. }
    destruct (startsWith (c :: rest) (str "null")).
    { eexists; split; [reflexivity|]. intros v r [= _ <-]. simpl.
      rewrite length_drop. lia. }
    eexists; split; [reflexivity|]. intros v r.
    destruct (parse_number (c :: rest)) as [[x r']|e] eqn:E; [|discriminate].
    apply parse_number_length in E. intros [= _ <-]. simpl in E. lia.
  - intros s acc Hfuel. cbn [parse_elements].
    destruct (IHv s) as (c & -> & Hc); [lia|].
    destruct c as [[v rest]|e]; [|apply thrown].
    specialize (Hc _ _ eq_refl).
    destruct (skip_ws rest) as [|d rest'] eqn:Hr; [apply thrown|].
    apply skip_ws_cons in Hr.
    destruct (d =? 44).
    { destruct (IHe rest' (v :: acc)) as (c' & -> & Hc'); [lia|].
      eexists; split; [reflexivity|]. intros vs r ->.
      specialize (Hc' _ _ eq_refl). lia. }
    destruct (d =? 93); [|apply thrown].
    eexists; split; [reflexivity|]. intros vs r [= _ <-]. lia.
  - intros s acc Hfuel. cbn [parse_members].
    destruct (skip_ws s) as [|q s1] eqn:Hs; [apply thrown|].
    apply skip_ws_cons in Hs.
    destruct (q =? 34); [|apply thrown].
    destruct (parse_string s1) as [[k s2]|e] eqn:Hk; [|apply thrown].
    apply parse_string_length in Hk.
    destruct (skip_ws s2) as [|colon s3] eqn:H2; [apply thrown|].
    apply skip_ws_cons in H2.
    destruct (colon =? 58); [|apply thrown].
    destruct (IHv s3) as (c & -> & Hc); [lia|].
    destruct c as [[v rest]|e]; [|apply thrown].
    specialize (Hc _ _ eq_refl).
    destruct (skip_ws rest) as [|d rest'] eqn:Hr; [apply thrown|].
    apply skip_ws_cons in Hr.
    destruct (d =? 44).
    { destruct (IHm rest' ((k, v) :: acc)) as (c' & -> & Hc'); [lia|].
      eexists; split; [reflexivity|]. intros vs r ->.
      specialize (Hc' _ _ eq_refl). lia. }
    destruct (d =? 125); [|apply thrown].
    eexists; split; [reflexivity|]. intros vs r [= _ <-]. lia.
Qed.

(** [JSON_parse] never runs out of fuel: it is decided by the parser. *)
Lemma JSON_parse_decided text :
  exists c, parse_value (2 * length text + 1) text = Some c.
Proof.
  destruct (proj1 (parse_fuel_enough (2 * length text + 1)) text (le_n _))
    as (c & H & _).
  eauto.
Qed.


(** ** checkUrl: errors and timeouts *)

(** At 7000 ms the timer is armed with the delay it is given. *)
Ltac at_timeout := change (timer_delay TIMEOUT_MS) with TIMEOUT_MS.

Section CheckUrlErrors.
Variable net : jsstring -> NetBehaviour.
Variable url : jsstring.

Lemma checkUrl_returns : exists r, checkUrl net url = Normal r.
Proof.
  unfold checkUrl, try_catch.
  destruct (fetchWithTimeout net url TIMEOUT_MS) as [res|e]; cbn [bind].
  - destruct (negb (res_ok res)); [eauto|].
    destruct (res_text res) as [text|e]; cbn [bind].
    + destruct (includes text (str "_embedded") && includes text (str "records")); [|eauto].
      destruct (check_json text); eauto.
    + destruct (jsstring_eqb (name e) (str "AbortError")); eauto.
  - destruct (jsstring_eqb (name e) (str "AbortError")); eauto.
Qed.

Lemma fetch_times_out :
  times_out (net url) = true -> fetchWithTimeout net url TIMEOUT_MS = Throw AbortError.
Proof.
  unfold fetchWithTimeout, times_out. at_timeout.
  destruct (net url) as [t res|t err|]; intros H; try reflexivity.
  - destruct (N.ltb_spec t TIMEOUT_MS); [lia|reflexivity].
  - destruct (N.ltb_spec t TIMEOUT_MS); [lia|reflexivity].
Qed.

(** C4, as amended.  [checkUrl] never throws.  A request that has not settled
    when the 7000 ms timer fires is classified [timeout] with detail
    [fetch timeout].  A request that fails earlier, or whose response body
    cannot be read, with an error not named [AbortError] is classified
    [timeout] with the error's message as detail when that message is not
    empty, and with [String(err)] when it is. *)
Theorem checkUrl_errors :
  (exists r, checkUrl net url = Normal r) /\
  (times_out (net url) = true ->
   checkUrl net url = Normal (mkResult timeout (str "fetch timeout"))) /\
  (forall t err,
     net url = Fails t err \/
     (exists res, net url = Responds t res /\ res_ok res = true /\
                  res_text res = Throw err) ->
     t < TIMEOUT_MS ->
     name err <> str "AbortError" ->
     checkUrl net url =
     Normal (mkResult timeout
               (if nonempty (message err) then message err else Error_toString err))).
Proof.
  split; [apply checkUrl_returns|split].
  - intros H. unfold checkUrl. rewrite (fetch_times_out H). reflexivity.
  - intros t err Hnet Ht Hname. unfold checkUrl, fetchWithTimeout. at_timeout.
    destruct Hnet as [Hnet|(res & Hnet & Hok & Htext)]; rewrite Hnet;
      destruct (N.ltb_spec t TIMEOUT_MS); try lia; cbn [bind try_catch];
      rewrite ?Hok, ?Htext; cbn [negb bind try_catch];
      unfold jsstring_eqb; rewrite bool_decide_eq_false_2 by exact Hname;
      destruct (message err); reflexivity.
Qed.

End CheckUrlErrors.

Lemma checkUrl_errors_witness :
  checkUrl (fun _ => Hangs) [] = Normal (mkResult timeout (str "fetch timeout")) /\
  checkUrl (fun _ => Fails 12 (mkError (str "TypeError") (str "fetch failed"))) []
  = Normal (mkResult timeout (str "fetch failed")).
Proof.
  split.
  - apply (proj1 (proj2 (checkUrl_errors (fun _ => Hangs) []))). reflexivity.
  - apply (proj2 (proj2 (checkUrl_errors
                           (fun _ => Fails 12 (mkError (str "TypeError") (str "fetch failed")))
                           [])) 12 (mkError (str "TypeError") (str "fetch failed")));
      [left; reflexivity | reflexivity | discriminate].
Defined.

(** C4 as stated fails: an error with an empty message is reported by its
    string form, not by its message. *)
Lemma checkUrl_empty_message :
  let err := mkError (str "TypeError") [] in
  checkUrl (fun _ => Fails 12 err) [] = Normal (mkResult timeout (str "TypeError")) /\
  message err <> str "TypeError".
Proof. split; [reflexivity|discriminate]. Qed.

(** ** checkUrl: classification of a body *)

Section Bodies.
Variable net : jsstring -> NetBehaviour.
Variable url : jsstring.
Variables (t : N) (res : Response) (text : jsstring).
Hypothesis Hnet : net url = Responds t res.
Hypothesis Ht : t < TIMEOUT_MS.
Hypothesis Hok : res_ok res = true.
Hypothesis Htext : res_text res = Normal text.

Lemma checkUrl_body :
  checkUrl net url =
  if includes text (str "_embedded") && includes text (str "records") then
    try_catch (check_json text)
      (fun _ => Normal (mkResult novalid (str "non-json response")))
  else Normal (mkResult novalid (str "no _embedded/records in response")).
Proof.
  unfold checkUrl, fetchWithTimeout. at_timeout. rewrite Hnet.
  destruct (N.ltb_spec t TIMEOUT_MS); [|lia].
  cbn [bind]. rewrite Hok, Htext. cbn [negb bind].
  destruct (includes text (str "_embedded") && includes text (str "records")).
  - destruct (check_json text); reflexivity.
  - reflexivity.
Qed.

Lemma checkUrl_direct_body :
  checkUrl_direct net url =
  try_catch (check_json text)
    (fun _ => Normal (mkResult novalid (str "non-json response"))).
Proof.
  unfold checkUrl_direct, fetchWithTimeout. at_timeout. rewrite Hnet.
  destruct (N.ltb_spec t TIMEOUT_MS); [|lia].
  cbn [bind]. rewrite Hok, Htext. cbn [negb bind].
  destruct (check_json text); reflexivity.
Qed.
End Bodies.


Lemma check_json_mismatch text j :
  JSON_parse text = Normal j ->
  has_asset_and_amount j = false ->
  check_json text =
  match first_record j with
  | Some JNull => Throw (TypeError "Cannot read properties of null or undefined")
  | _ => Normal structure_mismatch
  end.
Proof.
  intros Hj Hshape. unfold check_json. rewrite Hj. cbn [bind].
  unfold has_asset_and_amount in Hshape.
  destruct j as [|b|x|s|els|ms]; cbn [first_record truthy Get bind]; try reflexivity.
  - destruct b; reflexivity.
  - destruct (Number_truthy x); reflexivity.
  - destruct s; reflexivity.
  - cbn [first_record] in Hshape.
    destruct (own_property (str "_embedded") ms) as [[|b|x|s|els|es]|];
      cbn [truthy Get bind]; try reflexivity.
    + destruct b; reflexivity.
    + destruct (Number_truthy x); reflexivity.
    + destruct s; reflexivity.
    + destruct (own_property (str "records") es) as [[| | | |[|r els]|]|];
        try reflexivity.
      destruct r as [|b|x|s|els'|fs]; cbn [Get bind truthy]; try reflexivity.
      cbn [field] in Hshape.
      destruct (own_property (str "asset") fs) as [a|]; [|reflexivity].
      destruct (truthy (Some a)); [|reflexivity].
      cbn [bind].
      destruct (own_property (str "amount") fs) as [m|]; [|reflexivity].
      exfalso. apply bool_decide_eq_false in Hshape. apply Hshape. eauto.
Qed.




(** C8, as amended.  When the response arrives before the timeout with a
    success status and its body parses as JSON without a non-empty
    [_embedded.records] array whose first record has both [asset] and
    [amount], [checkUrl] classifies the probe as [novalid]; the detail is
    [no _embedded/records in response] when the body lacks one of the two
    substrings, and [json but structure mismatch] otherwise.  Nothing is said
    of a body with both substrings whose first record is [null]. *)
Theorem checkUrl_mismatch net url t res text j :
  net url = Responds t res -> t < TIMEOUT_MS -> res_ok res = true ->
  res_text res = Normal text ->
  JSON_parse text = Normal j ->
  has_asset_and_amount j = false ->
  (first_record j = Some JNull ->
   includes text (str "_embedded") && includes text (str "records") = false) ->
  checkUrl net url =
  Normal (mkResult novalid
            (if includes text (str "_embedded") && includes text (str "records")
             then str "json but structure mismatch"
             else str "no _embedded/records in response")).
Proof.
  intros Hnet Ht Hok Htext Hj Hshape Hnull.
  rewrite (checkUrl_body net url t res text Hnet Ht Hok Htext).
  destruct (includes text (str "_embedded") && includes text (str "records"));
    [|reflexivity].
  rewrite (check_json_mismatch text j Hj Hshape).
  destruct (first_record j) as [[| | | | |]|]; try reflexivity.
  specialize (Hnull eq_refl). discriminate.
Qed.

Lemma checkUrl_mismatch_witness :
  checkUrl (replies 200 "{'_embedded':{'records':[]}}") []
  = Normal (mkResult novalid (str "json but structure mismatch")).
Proof.
  apply (checkUrl_mismatch (replies 200 "{'_embedded':{'records':[]}}") [] 0
           (mkResponse 200 (Normal (quoted "{'_embedded':{'records':[]}}")))
           (quoted "{'_embedded':{'records':[]}}")
           (JObject [(str "_embedded", JObject [(str "records", JArray [])])]));
    try reflexivity.
  intros H. vm_compute in H. discriminate.
Defined.

(** C8 as stated fails: the detail is never the string
    [structure mismatch]. *)
Lemma checkUrl_mismatch_fails_as_stated :
  (JSON_parse (str "{}") = Normal (JObject []) /\
   has_asset_and_amount (JObject []) = false /\
   checkUrl (replies 200 "{}") []
     = Normal (mkResult novalid (str "no _embedded/records in response"))) /\
  (exists j,
     JSON_parse (quoted "{'_embedded':{'records':[]}}") = Normal j /\
     has_asset_and_amount j = false /\
     checkUrl (replies 200 "{'_embedded':{'records':[]}}") []
       = Normal (mkResult novalid (str "json but structure mismatch"))) /\
  str "no _embedded/records in response" <> str "structure mismatch" /\
  str "json but structure mismatch" <> str "structure mismatch".
Proof.
  split; [|split; [|split]].
  - repeat split; vm_compute; reflexivity.
  - eexists. repeat split; vm_compute; reflexivity.
  - discriminate.
  - discriminate.
Qed.

(** What the amended C8 is silent on: a first record that is [null], in a
    body with both substrings.  There [r.asset] throws inside the [try] that
    is meant for [JSON.parse], and the detail calls a body that is JSON not
    JSON; a first record that is a number or an empty object gets the detail
    of a mismatch. *)
Example null_first_record :
  checkUrl (replies 200 "{'_embedded':{'records':[null]}}") []
  = Normal (mkResult novalid (str "non-json response")) /\
  checkUrl (replies 200 "{'_embedded':{'records':[5]}}") []
  = Normal structure_mismatch /\
  checkUrl (replies 200 "{'_embedded':{'records':[{}]}}") []
  = Normal structure_mismatch.
Proof. repeat split; vm_compute; reflexivity. Qed.

(** ** The substring test before parsing *)

Lemma checkUrl_direct_or_rejected net url :
  checkUrl net url = checkUrl_direct net url \/
  (checkUrl net url = Normal (mkResult novalid (str "no _embedded/records in response")) /\
   exists t res text, net url = Responds t res /\ res_text res = Normal text /\
     includes text (str "_embedded") && includes text (str "records") = false).
Proof.
  unfold checkUrl, checkUrl_direct, fetchWithTimeout. at_timeout.
  destruct (net url) as [t res|t err|].
  - destruct (t <? TIMEOUT_MS); [|left; reflexivity].
    cbn [bind]. destruct (negb (res_ok res)); [left; reflexivity|].
    destruct (res_text res) as [text|e] eqn:Htext; [|left; reflexivity].
    cbn [bind].
    destruct (includes text (str "_embedded") && includes text (str "records"))
      eqn:Hinc; [left; reflexivity|].
    right. split; [reflexivity|]. exists t, res, text. auto.
  - destruct (t <? TIMEOUT_MS); left; reflexivity.
  - left; reflexivity.
Qed.

Lemma checkUrl_direct_returns net url : exists r, checkUrl_direct net url = Normal r.
Proof.
  unfold checkUrl_direct, try_catch.
  destruct (fetchWithTimeout net url TIMEOUT_MS) as [res|e]; cbn [bind].
  - destruct (negb (res_ok res)); [eauto|].
    destruct (res_text res) as [text|e]; cbn [bind].
    + destruct (check_json text); eauto.
    + destruct (jsstring_eqb (name e) (str "AbortError")); eauto.
  - destruct (jsstring_eqb (name e) (str "AbortError")); eauto.
Qed.

Lemma check_json_status text r :
  check_json text = Normal r -> status r = valid \/ r = structure_mismatch.
Proof.
  unfold check_json, bind. repeat case_match; intros [= <-]; auto.
Qed.

(** C9, as amended.  [checkUrl] and the variant without the substring test
    both return; they give the same status, except that [checkUrl] answers
    [novalid] with detail [no _embedded/records in response] where the
    variant answers [valid]; whatever [checkUrl] classifies as [valid] the
    variant classifies the same; and they agree on every body that contains
    both substrings. *)
Theorem precheck_only_rejects net url :
  (exists r r', checkUrl net url = Normal r /\ checkUrl_direct net url = Normal r' /\
     (status r = status r' \/
      (r = mkResult novalid (str "no _embedded/records in response") /\
       status r' = valid))) /\
  (forall r, checkUrl net url = Normal r -> status r = valid ->
     checkUrl_direct net url = Normal r) /\
  (forall t res text, net url = Responds t res -> res_text res = Normal text ->
     includes text (str "_embedded") = true -> includes text (str "records") = true ->
     checkUrl net url = checkUrl_direct net url).
Proof.
  destruct (checkUrl_returns net url) as [r Hr].
  destruct (checkUrl_direct_returns net url) as [r' Hr'].
  destruct (checkUrl_direct_or_rejected net url)
    as [Heq|[Hrej (t & res & text & Hnet & Htext & Hinc)]].
  - split; [|split].
    + exists r, r'. repeat split; try assumption. left.
      rewrite <- Heq, Hr in Hr'. congruence.
    + intros r0 H _. rewrite <- Heq. exact H.
    + intros. exact Heq.
  - split; [|split].
    + exists r, r'. repeat split; try assumption.
      rewrite Hrej in Hr. injection Hr as <-.
      revert Hr'. unfold checkUrl_direct, fetchWithTimeout. at_timeout. rewrite Hnet.
      revert Hrej. unfold checkUrl, fetchWithTimeout. at_timeout. rewrite Hnet.
      destruct (t <? TIMEOUT_MS); cbn [bind try_catch]; [|discriminate].
      destruct (negb (res_ok res)); [intros _ [= <-]; auto|].
      rewrite Htext. cbn [bind]. intros _.
      destruct (check_json text) as [r0|e] eqn:Hc; cbn [try_catch]; intros [= <-].
      * destruct (check_json_status text r0 Hc) as [Hv| ->]; auto.
      * auto.
    + intros r0 H Hv. rewrite Hrej in H. injection H as <-. discriminate.
    + intros t0 res0 text0 Hnet0 Htext0 He Hrec.
      rewrite Hnet in Hnet0. injection Hnet0 as <- <-.
      rewrite Htext in Htext0. injection Htext0 as <-.
      rewrite He, Hrec in Hinc. discriminate.
Qed.

Lemma precheck_only_rejects_witness :
  checkUrl_direct
    (replies 200 "{'_embedded':{'records':[{'asset':'native','amount':'5'}]}}") []
  = Normal (mkResult valid (str "amount=5")) /\
  checkUrl
    (replies 200 "{'_embedded':{'records':[]}}") []
  = checkUrl_direct
    (replies 200 "{'_embedded':{'records':[]}}") [].
Proof.
  split.
  - apply (proj1 (proj2 (precheck_only_rejects _ _))); vm_compute; reflexivity.
  - eapply (proj2 (proj2 (precheck_only_rejects _ _)) 0); reflexivity.
Defined.

(** C9 as stated fails: a body that spells [_embedded] with an escape is
    [valid] for the variant and [novalid] for [checkUrl]. *)
Lemma precheck_changes_status :
  checkUrl
    (replies 200 "{'\u005fembedded':{'records':[{'asset':'native','amount':'5'}]}}") []
  = Normal (mkResult novalid (str "no _embedded/records in response")) /\
  checkUrl_direct
    (replies 200 "{'\u005fembedded':{'records':[{'asset':'native','amount':'5'}]}}") []
  = Normal (mkResult valid (str "amount=5")).
Proof. split; vm_compute; reflexivity. Qed.

(** ** The loops *)

Section Loops.

Variables servers wallets : list jsstring.
Variable net : nat -> jsstring -> NetBehaviour.

Local Abbreviation next := (step servers wallets net).
Local Abbreviation reach := (reaches servers wallets net).

Lemma checkUrl_no_throw n url e : checkUrl n url = Throw e -> False.
Proof. destruct (checkUrl_returns n url) as [r ->]. discriminate. Qed.

(** Products of lengths are opaque to [lia]: name them. *)
Ltac products :=
  repeat match goal with
         | |- context [(?a * ?b)%nat] => generalize (a * b)%nat; intro
         end.

Lemma reaches_invariant (I : Pc * State -> Prop) c0 :
  I c0 ->
  (forall c c', I c -> next c = Some c' -> I c') ->
  forall c, reach c0 c -> I c.
Proof. intros H0 Hstep c Hc. induction Hc; eauto. Qed.

Lemma reaches_trans c1 c2 c3 : reach c1 c2 -> reach c2 c3 -> reach c1 c3.
Proof. intros H12 H23. induction H23; eauto using reaches_step. Qed.

Lemma run_reaches fuel c : reach c (run servers wallets net fuel c).
Proof.
  revert c. induction fuel as [|fuel IH]; intros c; simpl; [constructor|].
  destruct (next c) as [c'|] eqn:E; [|constructor].
  eapply reaches_trans; [|apply IH]. eapply reaches_step; [constructor|exact E].
Qed.

Lemma step_decreases pc st c' :
  next (pc, st) = Some c' ->
  (steps_left servers wallets c'.1 < steps_left servers wallets pc)%nat.
Proof.
  assert (forall i, i < length servers ->
            length servers - i = S (length servers - S i))%nat as Hsub by lia.
  unfold step. intros H.
  destruct pc as [i|i server j| |]; try discriminate.
  - destruct (servers !! i) as [server|] eqn:E.
    + apply lookup_lt_Some, Hsub in E.
      destruct (bool_decide _); injection H as <-; cbn [fst steps_left];
        rewrite E; cbn [Nat.mul]; products; lia.
    + injection H as <-. cbn [fst steps_left]. products. lia.
  - destruct (wallets !! j) as [wallet|] eqn:E.
    + apply lookup_lt_Some in E.
      destruct (buildUrl server wallet);
        [|injection H as <-; cbn [fst steps_left]; products; lia].
      cbv zeta in H.
      destruct (checkUrl _ _) as [r|];
        [|injection H as <-; cbn [fst steps_left]; products; lia].
      destruct (status r); injection H as <-; cbn [fst steps_left]; products; lia.
    + injection H as <-. cbn [fst steps_left]. products. lia.
Qed.

Lemma run_halts fuel : forall c,
  (steps_left servers wallets c.1 <= fuel)%nat ->
  next (run servers wallets net fuel c) = None.
Proof.
  induction fuel as [|fuel IH]; intros [pc st] Hfuel; cbn [run fst] in *.
  - destruct pc; cbn [steps_left] in Hfuel; try reflexivity; exfalso;
      revert Hfuel; products; lia.
  - destruct (next (pc, st)) as [c'|] eqn:E; [|exact E].
    apply IH. apply step_decreases in E. lia.
Qed.


(** What one step can be: a move that leaves the state alone, or a probe with
    its line, its counter and, when valid, its entry in the valid list. *)
Lemma step_inv pc st pc' st' :
  next (pc, st) = Some (pc', st') ->
  (st' = st /\
   ((exists i, pc = AtServer i /\ servers !! i = None /\ pc' = Finished) \/
    (exists i server, pc = AtServer i /\ servers !! i = Some server /\
       (server ∈ validList st) /\ pc' = AtServer (S i)) \/
    (exists i server, pc = AtServer i /\ servers !! i = Some server /\
       (server ∉ validList st) /\ pc' = AtWallet i server 0) \/
    (exists i server j, pc = AtWallet i server j /\ wallets !! j = None /\
       pc' = AtServer (S i)) \/
    (exists i server j wallet e, pc = AtWallet i server j /\
       wallets !! j = Some wallet /\ buildUrl server wallet = Throw e /\
       pc' = Crashed e))) \/
  (exists i server j wallet url result file line,
     pc = AtWallet i server j /\ wallets !! j = Some wallet /\
     buildUrl server wallet = Normal url /\
     checkUrl (net (probes_issued st)) url = Normal result /\
     log st' = log st ++ [Probed server wallet url (Normal result);
                          Appended server file line] /\
     files st' = appendFile file line (files st) /\
     stats st' = stats (bump (status result) st) /\
     (status result = valid /\ pc' = AtServer (S i) /\
      validList st' = validList st ++ [server] /\
      file = "valid.txt"%string /\ line = server ++ LF
      \/
      status result <> valid /\ pc' = AtWallet i server (S j) /\
      validList st' = validList st /\
      (file = "novalid.txt"%string \/ file = "timeout.txt"%string))).
Proof.
  unfold step. intros H.
  destruct pc as [i|i server j| |]; try discriminate.
  - left. destruct (servers !! i) as [server|] eqn:E.
    + destruct (bool_decide_reflect (server ∈ validList st)); injection H as <- <-;
        (split; [reflexivity|]); eauto 10.
    + injection H as <- <-. split; [reflexivity|]. eauto 10.
  - destruct (wallets !! j) as [wallet|] eqn:E.
    2:{ left. injection H as <- <-. split; [reflexivity|]. eauto 10. }
    destruct (buildUrl server wallet) as [url|e] eqn:B.
    2:{ left. injection H as <- <-. split; [reflexivity|].
        do 4 right. eauto 10. }
    cbv zeta in H.
    destruct (checkUrl (net (probes_issued st)) url) as [result|e] eqn:C.
    2:{ exfalso. eapply checkUrl_no_throw, C. }
    right. exists i, server, j, wallet, url, result.
    destruct (status result) eqn:Hs; injection H as <- <-.
    + exists "valid.txt"%string, (server ++ LF).
      cbn [log files stats validList bump push_valid append record_probe].
      rewrite <- app_assoc. repeat split; auto; left; repeat split; reflexivity.
    + eexists "novalid.txt"%string, _.
      cbn [log files stats validList bump push_valid append record_probe].
      rewrite <- app_assoc. repeat split; auto; right; repeat split; auto; congruence.
    + eexists "timeout.txt"%string, _.
      cbn [log files stats validList bump push_valid append record_probe].
      rewrite <- app_assoc. repeat split; auto; right; repeat split; auto; congruence.
Qed.



Lemma skipping_start st :
  log st = [] -> skipping (validList st) (AtServer 0, st).
Proof.
  intros Hlog. split; cbn [fst snd]; try rewrite Hlog.
  - auto.
  - discriminate.
  - intros s ev H. apply elem_of_nil in H. contradiction.
  - intros s ev H. apply elem_of_nil in H. contradiction.
  - intros m n ev ev' s _ H. discriminate.
Qed.

Lemma skipping_step known c c' :
  skipping known c -> next c = Some c' -> skipping known c'.
Proof.
  destruct c as [pc st], c' as [pc' st']. intros [Ha Hb Hc Hd He] Hstep.
  cbn [fst snd] in *.
  apply step_inv in Hstep
    as [[-> Hmove]|(i & server & j & wallet & url & result & file & line & -> & _ & _
                    & _ & Hlog & _ & _ & Hcase)].
  - split; cbn [fst snd]; auto.
    intros i s j Hpc.
    destruct Hmove as [H|[H|[H|[H|H]]]];
      repeat match type of H with ex _ => destruct H as [? H] end;
      destruct_and?; simplify_eq. assumption.
  - pose proof (Hb i server j eq_refl) as Hserver.
    assert (forall s, s ∈ validList st -> s ∈ validList st') as Hgrow.
    { intros s Hs. destruct Hcase as [(_ & _ & -> & _)|(_ & _ & -> & _)]; [|exact Hs].
      apply elem_of_app. auto. }
    split; cbn [fst snd]; rewrite ?Hlog.
    + auto.
    + intros i' s j' ->.
      destruct Hcase as [(_ & [=] & _)|(_ & ? & -> & _)]. simplify_eq. exact Hserver.
    + intros s ev Hev Hfound. apply elem_of_app in Hev as [Hev|Hev]; [eauto|].
      apply elem_of_cons in Hev as [->|Hev].
      * destruct Hfound as [<- Hvalid].
        destruct Hcase as [(_ & _ & -> & _)|(Hnv & _)]; [|contradiction].
        apply elem_of_app. right. apply list_elem_of_singleton. reflexivity.
      * apply list_elem_of_singleton in Hev as ->. contradiction.
    + intros s ev Hev Htouch. apply elem_of_app in Hev as [Hev|Hev]; [eauto|].
      assert (s = server) as ->.
      { apply elem_of_cons in Hev as [->|Hev]; [symmetry; exact Htouch|].
        apply list_elem_of_singleton in Hev as ->. symmetry; exact Htouch. }
      intros Hin. apply Hserver, Ha, Hin.
    + intros m n ev ev' s Hmn Hm Hn Hfound Hprobe.
      apply lookup_app_Some in Hn as [Hn|[Hlen Hn]].
      { apply lookup_app_Some in Hm as [Hm|[Hlen' _]].
        - exact (He m n ev ev' s Hmn Hm Hn Hfound Hprobe).
        - apply lookup_lt_Some in Hn. lia. }
      assert (s = server /\ n = length (log st)) as [-> ->].
      { destruct (n - length (log st))%nat as [|[|k]] eqn:Hk; cbn in Hn;
          try discriminate; injection Hn as <-; [|contradiction].
        split; [symmetry; exact Hprobe|lia]. }
      apply lookup_app_Some in Hm as [Hm|[Hlen' _]]; [|lia].
      apply Hserver. apply (Hc server ev); [|exact Hfound].
      apply list_elem_of_lookup. eauto.
Qed.

Lemma skipping_run st c :
  log st = [] -> reach (AtServer 0, st) c -> skipping (validList st) c.
Proof.
  intros Hlog. apply (reaches_invariant (skipping (validList st))).
  - apply skipping_start, Hlog.
  - apply skipping_step.
Qed.


Lemma probes_issued_after st st' ev ev' :
  log st' = log st ++ [ev; ev'] ->
  is_probe ev = true -> is_probe ev' = false ->
  probes_issued st' = S (probes_issued st).
Proof.
  unfold probes_issued. intros -> H H'.
  rewrite List.filter_app, length_app. cbn [List.filter]. rewrite H, H'.
  cbn [length]. lia.
Qed.

(** One step issues no probe and leaves the counters alone, or issues one
    probe and adds one to one counter. *)
Lemma step_counts c c' :
  next c = Some c' ->
  (probes_issued c'.2 = probes_issued c.2 /\ stats c'.2 = stats c.2) \/
  (probes_issued c'.2 = S (probes_issued c.2) /\
   let s := stats c.2 in
   (stats c'.2 = mkStats (n_valid s + 1) (n_novalid s) (n_timeout s) \/
    stats c'.2 = mkStats (n_valid s) (n_novalid s + 1) (n_timeout s) \/
    stats c'.2 = mkStats (n_valid s) (n_novalid s) (n_timeout s + 1))).
Proof.
  destruct c as [pc st], c' as [pc' st']. cbn [fst snd]. intros Hstep.
  apply step_inv in Hstep
    as [[-> _]|(i & server & j & wallet & url & result & file & line & _ & _ & _
                & _ & Hlog & _ & Hstats & _)]; [left; auto|].
  right. split.
  - apply (probes_issued_after _ _ _ _ Hlog); reflexivity.
  - rewrite Hstats. destruct (status result); cbn; auto.
Qed.

Lemma counting_run st c :
  log st = [] -> stats st = mkStats 0 0 0 ->
  reach (AtServer 0, st) c ->
  total (stats c.2) = N.of_nat (probes_issued c.2).
Proof.
  intros Hlog Hstats.
  apply (reaches_invariant
           (fun c => total (stats c.2) = N.of_nat (probes_issued c.2))).
  - cbn [snd]. unfold probes_issued. rewrite Hlog, Hstats. reflexivity.
  - intros c1 c2 IH Hstep. apply step_counts in Hstep as [[Hp Hs]|[Hp Hs]];
      rewrite Hp; [rewrite Hs; exact IH|].
    cbn zeta in Hs. unfold total in *.
    destruct Hs as [Hs|[Hs|Hs]]; rewrite Hs; cbn [n_valid n_novalid n_timeout]; lia.
Qed.

End Loops.

Lemma setup_inr fs servers wallets st :
  setup fs = inr (servers, wallets, st) ->
  st = mkState (writeFile "timeout.txt" [] (writeFile "novalid.txt" [] fs))
               (load_validList fs) (mkStats 0 0 0) [] /\
  (exists raw, fs !! SERVERS_FILE = Some raw /\ servers = read_lines raw) /\
  (exists raw, fs !! WALLETS_FILE = Some raw /\ wallets = read_lines raw) /\
  servers <> [] /\ wallets <> [].
Proof.
  unfold setup, readFile.
  destruct (fs !! SERVERS_FILE) as [sraw|]; [|discriminate].
  destruct (fs !! WALLETS_FILE) as [wraw|]; [|discriminate].
  destruct (bool_decide_reflect (length (read_lines sraw) = 0%nat)) as [|Hs];
    [discriminate|].
  destruct (bool_decide_reflect (length (read_lines wraw) = 0%nat)) as [|Hw];
    [discriminate|].
  intros [= <- <- <-]. repeat split; eauto.
  - intros E. rewrite E in Hs. auto.
  - intros E. rewrite E in Hw. auto.
Qed.

Lemma main_in_run fs net servers wallets c :
  main fs net = Ran servers wallets c -> in_run fs net servers wallets c.
Proof.
  unfold main, in_run. destruct (setup fs) as [[why fs']|[[ss ws] st]]; [discriminate|].
  intros [= <- <- <-]. exists st. split; [reflexivity|apply run_reaches].
Qed.

(** The loops end: the configuration [main] stops in has no next step. *)
Lemma main_halts fs net servers wallets c :
  main fs net = Ran servers wallets c -> step servers wallets net c = None.
Proof.
  unfold main. destruct (setup fs) as [[why fs']|[[ss ws] st]]; [discriminate|].
  intros [= <- <- <-]. apply run_halts. unfold enough. cbn [fst steps_left].
  rewrite Nat.sub_0_r. lia.
Qed.

(** The servers of the valid list that was loaded: nothing in the log is
    theirs, their turn is one step that changes nothing, and every step that
    changes anything is a probe of another server. *)
Lemma known_server_untouched fs net servers wallets c server :
  in_run fs net servers wallets c ->
  server ∈ load_validList fs ->
  forall ev, ev ∈ log c.2 -> ~ touches server ev.
Proof.
  intros (st & Hsetup & Hreach) Hknown.
  apply setup_inr in Hsetup as (-> & _).
  apply skipping_run in Hreach as [_ _ _ Hd _]; [|reflexivity].
  intros ev Hev Htouch. exact (Hd server ev Hev Htouch Hknown).
Qed.

(** C2.  A server that is in the valid list loaded from [valid.txt] at
    start-up is skipped: at every point of the run the log holds no probe of
    it and no line appended for it; when its turn comes, the outer loop goes
    to the next server in one step that leaves the files, the valid list and
    the counters as they are; and every step that changes anything is a probe
    of another server. *)
Theorem known_valid_server_skipped fs net servers wallets c server :
  in_run fs net servers wallets c ->
  server ∈ load_validList fs ->
  (forall ev, ev ∈ log c.2 -> ~ touches server ev) /\
  (forall i, c.1 = AtServer i -> servers !! i = Some server ->
     step servers wallets net c = Some (AtServer (S i), c.2)) /\
  (forall c', step servers wallets net c = Some c' ->
     c'.2 = c.2 \/ exists i s j, c.1 = AtWallet i s j /\ s <> server).
Proof.
  intros Hrun Hknown.
  split; [exact (known_server_untouched _ _ _ _ _ _ Hrun Hknown)|].
  destruct Hrun as (st & Hsetup & Hreach).
  apply setup_inr in Hsetup as (-> & _).
  apply skipping_run in Hreach as [Ha Hb _ _ _]; [|reflexivity].
  cbn [validList] in *. split.
  - destruct c as [pc st]. cbn [fst snd]. intros i -> Hi. cbn [step]. rewrite Hi.
    rewrite bool_decide_eq_true_2; [reflexivity|]. apply Ha, Hknown.
  - destruct c as [pc st], c' as [pc' st']. cbn [fst snd] in *. intros Hstep.
    apply step_inv in Hstep
      as [[-> _]|(i & s & j & wallet & url & result & file & line & -> & _)];
      [left; reflexivity|].
    right. exists i, s, j. split; [reflexivity|].
    intros ->. apply (Hb i server j eq_refl), Ha, Hknown.
Qed.

(** C3.  At every point of a run, no probe of a server comes after a probe
    of that server that was classified [valid]; and a probe classified
    [valid] appends the server's line to [valid.txt], adds the server to the
    valid list, counts it, and takes control out of the wallet loop to the
    next server. *)
Theorem valid_ends_wallet_loop fs net servers wallets c :
  in_run fs net servers wallets c ->
  (forall m n ev ev' server,
     (m < n)%nat -> log c.2 !! m = Some ev -> log c.2 !! n = Some ev' ->
     finds_valid server ev -> ~ probes server ev') /\
  (forall i server j wallet url result,
     c.1 = AtWallet i server j -> wallets !! j = Some wallet ->
     buildUrl server wallet = Normal url ->
     checkUrl (net (probes_issued c.2)) url = Normal result ->
     status result = valid ->
     exists st', step servers wallets net c = Some (AtServer (S i), st') /\
       files st' = appendFile "valid.txt" (server ++ LF) (files c.2) /\
       validList st' = validList c.2 ++ [server] /\
       n_valid (stats st') = n_valid (stats c.2) + 1).
Proof.
  intros (st & Hsetup & Hreach).
  apply setup_inr in Hsetup as (-> & _).
  apply skipping_run in Hreach as [_ _ _ _ He]; [|reflexivity].
  split; [exact He|].
  destruct c as [pc st]. cbn [fst snd].
  intros i server j wallet url result -> Hw Hurl Hres Hvalid.
  cbn [step]. rewrite Hw, Hurl. cbv zeta. rewrite Hres, Hvalid.
  eexists. split; [reflexivity|]. repeat split.
Qed.

(** C6.  At every point of a run the three counters add up to the number of
    probes issued so far; and a step either issues no probe and leaves the
    counters as they are, or issues one probe and adds one to exactly one
    counter. *)
Theorem counters_count_probes fs net servers wallets c :
  in_run fs net servers wallets c ->
  total (stats c.2) = N.of_nat (probes_issued c.2) /\
  (forall c', step servers wallets net c = Some c' ->
     (probes_issued c'.2 = probes_issued c.2 /\ stats c'.2 = stats c.2) \/
     (probes_issued c'.2 = S (probes_issued c.2) /\
      let s := stats c.2 in
      (stats c'.2 = mkStats (n_valid s + 1) (n_novalid s) (n_timeout s) \/
       stats c'.2 = mkStats (n_valid s) (n_novalid s + 1) (n_timeout s) \/
       stats c'.2 = mkStats (n_valid s) (n_novalid s) (n_timeout s + 1)))).
Proof.
  intros (st & Hsetup & Hreach).
  apply setup_inr in Hsetup as (-> & _).
  split.
  - revert Hreach. apply counting_run; reflexivity.
  - intros c'. apply step_counts.
Qed.

(** C10.  When [servers.txt] or [wallets.txt] is missing, or yields no line
    after trimming and dropping blank lines, [main] exits with code 1 during
    set-up and the files are exactly as they were: neither [novalid.txt] nor
    [timeout.txt] has been truncated and [valid.txt] is unchanged.  [main]
    exits during set-up in no other case. *)
Theorem setup_failure_touches_nothing fs net :
  (unusable fs SERVERS_FILE \/ unusable fs WALLETS_FILE ->
   exists why, main fs net = SetupFailed why fs /\ exit_code (main fs net) = 1) /\
  (forall why fs', main fs net = SetupFailed why fs' ->
     fs' = fs /\ (unusable fs SERVERS_FILE \/ unusable fs WALLETS_FILE)).
Proof.
  unfold main, setup, unusable.
  destruct (readFile fs SERVERS_FILE) as [sraw|].
  2:{ split; [intros _; eexists; split; reflexivity|].
      intros why fs' [= _ <-]. auto. }
  destruct (readFile fs WALLETS_FILE) as [wraw|].
  2:{ split; [intros _; eexists; split; reflexivity|].
      intros why fs' [= _ <-]. auto. }
  destruct (bool_decide_reflect (length (read_lines sraw) = 0%nat)) as [Hs|Hs].
  { apply length_zero_iff_nil in Hs.
    split; [intros _; eexists; split; reflexivity|].
    intros why fs' [= _ <-]. auto. }
  destruct (bool_decide_reflect (length (read_lines wraw) = 0%nat)) as [Hw|Hw].
  { apply length_zero_iff_nil in Hw.
    split; [intros _; eexists; split; reflexivity|].
    intros why fs' [= _ <-]. auto. }
  split; [|discriminate].
  intros [E|E]; rewrite E in *; contradiction.
Qed.


(** ** Lines written and read back *)

Lemma split_lines_nonempty s : split_lines s <> [].
Proof.
  induction s as [|c s IH]; cbn [split_lines]; [discriminate|].
  destruct (c =? 10); [discriminate|].
  destruct ((c =? 13) && _); [exact IH|].
  destruct (split_lines s); discriminate.
Qed.

(** Up to a line feed the pieces do not depend on what follows it. *)
Lemma split_lines_line_feed pre :
  exists pieces, pieces <> [] /\ forall rest,
    split_lines (pre ++ 10 :: rest) = pieces ++ split_lines rest.
Proof.
  induction pre as [|c pre (pieces & Hne & IH)].
  - exists [[]]. split; [discriminate|]. intros rest. reflexivity.
  - assert (forall rest,
              match pre ++ 10 :: rest with d :: _ => d =? 10 | [] => false end
              = match pre ++ [10] with d :: _ => d =? 10 | [] => false end) as Hnext
      by (intros rest; destruct pre; reflexivity).
    destruct (c =? 10) eqn:Hc.
    { exists ([] :: pieces). split; [discriminate|]. intros rest.
      cbn [app split_lines]. rewrite Hc, IH. reflexivity. }
    destruct ((c =? 13) && match pre ++ [10] with d :: _ => d =? 10 | [] => false end)
      eqn:Hcr.
    + exists pieces. split; [exact Hne|]. intros rest. cbn [app split_lines].
      rewrite Hc, <- IH, Hnext, Hcr. reflexivity.
    + destruct pieces as [|piece others]; [contradiction|].
      exists ((c :: piece) :: others). split; [discriminate|]. intros rest.
      cbn [app split_lines]. rewrite Hc, IH, Hnext, Hcr. reflexivity.
Qed.

(** A line without a line feed in it and no carriage return at its end is
    one piece. *)
Lemma split_lines_line s rest :
  10 ∉ s -> last s <> Some 13 ->
  split_lines (s ++ 10 :: rest) = s :: split_lines rest.
Proof.
  induction s as [|c s IH]; intros Hlf Hcr; [reflexivity|].
  cbn [app split_lines].
  apply not_elem_of_cons in Hlf as [Hc Hlf].
  destruct (N.eqb_spec c 10) as [->|_]; [contradiction|].
  rewrite IH; [|exact Hlf|].
  2:{ intros E. apply Hcr. destruct s; [discriminate|exact E]. }
  destruct s as [|d s]; cbn [app].
  - destruct (N.eqb_spec c 13) as [->|_]; [contradiction Hcr; reflexivity|].
    reflexivity.
  - apply not_elem_of_cons in Hlf as [Hd _].
    destruct (N.eqb_spec d 10) as [->|_]; [contradiction|].
    rewrite andb_false_r. reflexivity.
Qed.

Lemma split_lines_no_line_feed s piece :
  piece ∈ split_lines s -> 10 ∉ piece.
Proof.
  revert piece. induction s as [|c s IH]; intros piece; cbn [split_lines].
  - intros H. apply list_elem_of_singleton in H as ->. apply not_elem_of_nil.
  - destruct (N.eqb_spec c 10) as [->|Hc].
    { intros H. apply elem_of_cons in H as [->|H]; [apply not_elem_of_nil|auto]. }
    destruct ((c =? 13) && _); [auto|].
    destruct (split_lines s) as [|first others]; intros H.
    + apply list_elem_of_singleton in H as ->.
      intros H. apply list_elem_of_singleton in H. congruence.
    + apply elem_of_cons in H as [->|H].
      * intros H. apply elem_of_cons in H as [H|H]; [congruence|].
        revert H. apply IH. left.
      * apply IH. right. exact H.
Qed.

Lemma trimStart_suffix s : exists spaces, s = spaces ++ trimStart s.
Proof.
  induction s as [|c s (spaces & IH)]; [exists []; reflexivity|].
  cbn [trimStart]. destruct (is_space c).
  - exists (c :: spaces). cbn [app]. congruence.
  - exists []. reflexivity.
Qed.

Lemma trimStart_head s c rest : trimStart s = c :: rest -> is_space c = false.
Proof.
  induction s as [|d s IH]; cbn [trimStart]; [discriminate|].
  destruct (is_space d) eqn:Hd; [exact IH|]. intros [= <- _]. exact Hd.
Qed.

Lemma trimStart_fixed s :
  match s with c :: _ => is_space c = false | [] => True end -> trimStart s = s.
Proof. destruct s as [|c s]; [reflexivity|]. cbn [trimStart]. intros ->. reflexivity. Qed.

Lemma trimStart_idem s : trimStart (trimStart s) = trimStart s.
Proof.
  apply trimStart_fixed. destruct (trimStart s) as [|c rest] eqn:E; [exact I|].
  exact (trimStart_head s c rest E).
Qed.

Lemma trimmed_trim s : trimmed s -> trim s = s.
Proof. intros [H1 H2]. unfold trim. rewrite H1, H2. apply rev_involutive. Qed.

Lemma trim_trimmed s : trimmed (trim s).
Proof.
  unfold trimmed, trim. rewrite rev_involutive, trimStart_idem. split; [|reflexivity].
  apply trimStart_fixed.
  destruct (trimStart_suffix (rev (trimStart s))) as (spaces & E).
  apply (f_equal (@rev N)) in E. rewrite rev_involutive, rev_app_distr in E.
  destruct (rev (trimStart (rev (trimStart s)))) as [|c rest]; [exact I|].
  cbn [app] in E. exact (trimStart_head s c _ E).
Qed.

Lemma trimmed_last s : trimmed s -> last s <> Some 13.
Proof.
  intros [_ H] E. rewrite last_Some in E. destruct E as [l' ->].
  rewrite rev_app_distr in H. cbn in H.
  apply (f_equal (@length N)) in H. cbn in H.
  destruct (trimStart_suffix (rev l')) as (spaces & E).
  rewrite E in H at 2. rewrite length_app in H. lia.
Qed.

Lemma elem_of_rev (x : N) l : x ∈ rev l <-> x ∈ l.
Proof. rewrite !list_elem_of_In. symmetry. apply in_rev. Qed.

Lemma trim_no_line_feed s : 10 ∉ s -> 10 ∉ trim s.
Proof.
  intros H Hin. apply H. unfold trim in Hin.
  apply (proj1 (elem_of_rev _ _)) in Hin.
  destruct (trimStart_suffix (rev (trimStart s))) as (sp & E).
  assert (10 ∈ rev (trimStart s)) as Hin'
    by (rewrite E; apply elem_of_app; right; exact Hin).
  apply (proj1 (elem_of_rev _ _)) in Hin'.
  destruct (trimStart_suffix s) as (sp' & E'). rewrite E'. apply elem_of_app.
  right. exact Hin'.
Qed.

(** What [read_lines] gives: lines with nothing to strip, not empty, and
    without a line feed. *)
Lemma read_lines_clean raw s :
  s ∈ read_lines raw -> trimmed s /\ s <> [] /\ 10 ∉ s.
Proof.
  unfold read_lines. intros H. apply list_elem_of_In, filter_In in H as [H Hne].
  apply in_map_iff in H as (piece & <- & H). apply list_elem_of_In in H.
  split; [apply trim_trimmed|split].
  - intros E. rewrite E in Hne. discriminate.
  - apply trim_no_line_feed. exact (split_lines_no_line_feed raw piece H).
Qed.




(** ** A second run on the files the first one left *)

Lemma load_validList_valid_txt fs : load_validList fs = read_lines (valid_txt fs).
Proof.
  unfold load_validList, valid_txt, readFile. destruct (fs !! "valid.txt"); reflexivity.
Qed.










(** ** The claims on concrete runs *)

Lemma example_in_run n :
  in_run example_files example_net example_servers example_wallets (example_at n).
Proof.
  exists example_start. split; [vm_compute; reflexivity|apply run_reaches].
Qed.


Lemma known_valid_server_skipped_witness :
  str "b.example:8080" ∈ load_validList example_files /\
  forall ev, ev ∈ log example_end.2 -> ~ touches (str "b.example:8080") ev.
Proof.
  assert (str "b.example:8080" ∈ load_validList example_files) as H
    by (vm_compute; left).
  split; [exact H|].
  exact (proj1 (known_valid_server_skipped _ _ _ _ _ _ (example_in_run _) H)).
Defined.

Lemma valid_ends_wallet_loop_witness :
  ~ probes (str "a.example")
      (Appended (str "a.example") "valid.txt" (str "a.example" ++ LF)) /\
  exists st',
    step example_servers example_wallets example_net (example_at 2)
    = Some (AtServer 1, st') /\
    files st' = appendFile "valid.txt" (str "a.example" ++ LF) (files (example_at 2).2) /\
    validList st' = validList (example_at 2).2 ++ [str "a.example"] /\
    n_valid (stats st') = n_valid (stats (example_at 2).2) + 1.
Proof.
  split.
  - apply (proj1 (valid_ends_wallet_loop _ _ _ _ _ (example_in_run 4))
             2%nat 3%nat example_valid_probe);
      [lia | vm_compute; reflexivity | vm_compute; reflexivity | split; reflexivity].
  - apply (proj2 (valid_ends_wallet_loop _ _ _ _ _ (example_in_run 2))
             0%nat (str "a.example") 1%nat (str "W2") example_url
             (mkResult valid (str "amount=5")));
      vm_compute; reflexivity.
Defined.

Lemma counters_count_probes_witness :
  total (stats example_end.2) = N.of_nat (probes_issued example_end.2).
Proof. exact (proj1 (counters_count_probes _ _ _ _ _ (example_in_run _))). Defined.

Lemma setup_failure_touches_nothing_witness :
  exists why, main ∅ example_net = SetupFailed why ∅ /\
              exit_code (main ∅ example_net) = 1.
Proof.
  apply (proj1 (setup_failure_touches_nothing ∅ example_net)).
  left. exact I.
Defined.



(** The scenario of the specification: [a.example] with wallets [W1] (no
    record) and [W2] (a record with amount 5). *)
Example scenario_counters :
  fst example_end = Finished /\
  stats example_end.2 = mkStats 1 1 0 /\
  files example_end.2 !! "valid.txt" = Some (lines ["b.example:8080"; "a.example"]) /\
  files example_end.2 !! "novalid.txt"
    = Some (lines ["a.example|W1|json but structure mismatch"]) /\
  files example_end.2 !! "timeout.txt" = Some [].
Proof. vm_compute. repeat split. Qed.

(** * Further properties *)

(** ** What each classification tells *)

(** X1.  A probe is classified [timeout] exactly when no response that can be
    read came in time: the request hung, failed, was answered after the timer
    had fired, or was answered with a success status and a body that could not
    be read. *)
Theorem checkUrl_timeout_iff net url r :
  checkUrl net url = Normal r ->
  (status r = timeout <-> ~ readable (net url)).
Proof.
  unfold checkUrl, fetchWithTimeout, readable. at_timeout.
  destruct (net url) as [t res|t err|].
  - destruct (N.ltb_spec t TIMEOUT_MS) as [Ht|Ht]; cbn [bind try_catch].
    + destruct (res_ok res) eqn:Hok; cbn [negb].
      * destruct (res_text res) as [text|e] eqn:Htext; cbn [bind try_catch].
        -- intros Hr. split.
           ++ intros Hs. exfalso. revert Hr Hs.
              destruct (includes text (str "_embedded") && includes text (str "records")).
              ** destruct (check_json text) as [r0|e] eqn:Hc; cbn [try_catch];
                   intros [= <-]; [|discriminate].
                 destruct (check_json_status text r0 Hc) as [-> | ->]; discriminate.
              ** intros [= <-]. discriminate.
           ++ intros Hn. exfalso. apply Hn. exists t, res. eauto.
        -- intros Hr. split.
           ++ intros _ (t' & res' & [= <- <-] & _ & [Hf|(text & Ht')]); congruence.
           ++ intros _. revert Hr.
              destruct (jsstring_eqb (name e) (str "AbortError")); intros [= <-];
                reflexivity.
      * intros [= <-]. split; [discriminate|].
        intros Hn. exfalso. apply Hn. exists t, res. auto.
    + intros [= <-]. split; [|reflexivity].
      intros _ (t' & res' & [= <- <-] & Hlt & _). lia.
  - intros Hr. split.
    + intros _ (t' & res' & [=] & _).
    + intros _. revert Hr.
      destruct (t <? TIMEOUT_MS); cbn [bind try_catch];
        [destruct (jsstring_eqb (name err) (str "AbortError"))|];
        intros [= <-]; reflexivity.
  - intros [= <-]. split; [|reflexivity].
    intros _ (t' & res' & [=] & _).
Qed.



Lemma uint_digits_are_digits d : Forall (fun c => is_digit c = true) (uint_digits d).
Proof. induction d; cbn [uint_digits]; constructor; auto. Qed.

(** X3.  The detail of a [novalid] result is one of three fixed sentences or
    [HTTP] and the status code in decimal; so it holds no line feed and no
    [|]. *)
Theorem checkUrl_novalid_details net url r :
  checkUrl net url = Normal r -> status r = novalid ->
  (details r ∈ novalid_reasons \/
   exists t res, net url = Responds t res /\ res_ok res = false /\
                 details r = str "HTTP " ++ N_toString (res_status res)) /\
  (10 ∉ details r) /\ (124 ∉ details r).
Proof.
  intros Hr Hs.
  assert (details r ∈ novalid_reasons \/
          exists t res, net url = Responds t res /\ res_ok res = false /\
                        details r = str "HTTP " ++ N_toString (res_status res)) as H.
  { revert Hr Hs. unfold checkUrl, fetchWithTimeout. at_timeout.
    destruct (net url) as [t res|t err|].
    - destruct (t <? TIMEOUT_MS); cbn [bind try_catch];
        [|intros [= <-]; discriminate].
      destruct (res_ok res) eqn:Hok; cbn [negb].
      2:{ intros [= <-] _. right. exists t, res. auto. }
      destruct (res_text res) as [text|e]; cbn [bind try_catch].
      2:{ destruct (jsstring_eqb (name e) (str "AbortError")); intros [= <-];
          discriminate. }
      destruct (includes text (str "_embedded") && includes text (str "records")).
      + destruct (check_json text) as [r0|e] eqn:Hc; cbn [try_catch]; intros [= <-].
        * destruct (check_json_status text r0 Hc) as [Hv | ->]; [congruence|].
          intros _. left. left.
        * intros _. left. right. left.
      + intros [= <-] _. left. right. right. left.
    - destruct (t <? TIMEOUT_MS); cbn [bind try_catch];
        [destruct (jsstring_eqb (name err) (str "AbortError"))|];
        intros [= <-]; discriminate.
    - intros [= <-]; discriminate. }
  split; [exact H|].
  destruct H as [H|(t & res & _ & _ & ->)].
  - unfold novalid_reasons in H.
    repeat (apply elem_of_cons in H as [-> |H]);
      [| | |apply elem_of_nil in H; contradiction];
      split; intros Hin; apply list_elem_of_In in Hin; vm_compute in Hin;
      intuition discriminate.
  - assert (forall c, c ∈ str "HTTP " ++ N_toString (res_status res) ->
                      c <> 10 /\ c <> 124) as Hc.
    { intros c Hin. apply elem_of_app in Hin as [Hin|Hin].
      - apply list_elem_of_In in Hin. vm_compute in Hin. intuition subst; lia.
      - pose proof (uint_digits_are_digits (N.to_uint (res_status res))) as Hd.
        rewrite Forall_forall in Hd. specialize (Hd c Hin).
        unfold is_digit, in_range in Hd. lia. }
    split; intros Hin; apply Hc in Hin; tauto.
Qed.

(** ** checkUrl: the other rejections *)

(** X4.  A response that arrives in time with a status outside 200..299 is
    classified novalid with detail [HTTP <status>], whatever its body is and
    whether or not the body can be read. *)
Theorem checkUrl_http_error net url t res :
  net url = Responds t res -> t < TIMEOUT_MS ->
  ~ (200 <= res_status res <= 299) ->
  checkUrl net url
  = Normal (mkResult novalid (str "HTTP " ++ N_toString (res_status res))).
Proof.
  intros Hnet Ht Hst. unfold checkUrl, fetchWithTimeout. at_timeout. rewrite Hnet.
  destruct (N.ltb_spec t TIMEOUT_MS); [|lia]. cbn [bind try_catch].
  assert (res_ok res = false) as ->; [|reflexivity].
  unfold res_ok, in_range. lia.
Qed.

(** X5.  A body that is not JSON is classified novalid; the detail is
    [non-json response] only when the text has both markers, and the one for a
    missing marker otherwise. *)
Theorem checkUrl_not_json net url t res text e :
  net url = Responds t res -> t < TIMEOUT_MS -> res_ok res = true ->
  res_text res = Normal text ->
  JSON_parse text = Throw e ->
  checkUrl net url
  = Normal (mkResult novalid
              (if includes text (str "_embedded") && includes text (str "records")
               then str "non-json response"
               else str "no _embedded/records in response")).
Proof.
  intros Hnet Ht Hok Htext Hparse.
  rewrite (checkUrl_body net url t res text Hnet Ht Hok Htext).
  destruct (includes text (str "_embedded") && includes text (str "records"));
    [|reflexivity].
  unfold check_json. rewrite Hparse. reflexivity.
Qed.

(** ** fetchWithTimeout: a longer timeout *)

Lemma timer_delay_mono ms ms' :
  ms <= ms' -> ms' <= 0x7FFFFFFF -> timer_delay ms <= timer_delay ms'.
Proof.
  unfold timer_delay, in_range. intros Hle Hmax.
  destruct (N.leb_spec 1 ms), (N.leb_spec ms 0x7FFFFFFF),
           (N.leb_spec 1 ms'), (N.leb_spec ms' 0x7FFFFFFF); cbn [andb]; lia.
Qed.

(** X6.  As long as the timeout is one [setTimeout] takes as it is (up to
    2^31-1 ms), waiting longer changes nothing but a timeout: with a longer
    timer [fetchWithTimeout] gives the same response or rethrows the same
    error, unless the shorter timer had fired.  A timeout above 2^31-1 ms
    acts as one of 1 ms. *)
Theorem fetchWithTimeout_longer net url ms ms' :
  (ms <= ms' -> ms' <= 0x7FFFFFFF ->
   fetchWithTimeout net url ms' = fetchWithTimeout net url ms \/
   fetchWithTimeout net url ms = Throw AbortError) /\
  (0x7FFFFFFF < ms' -> fetchWithTimeout net url ms' = fetchWithTimeout net url 1).
Proof.
  split.
  - intros Hle Hmax. pose proof (timer_delay_mono ms ms' Hle Hmax) as Hd.
    unfold fetchWithTimeout.
    destruct (net url) as [t res|t err|]; [| |left; reflexivity];
      destruct (N.ltb_spec t (timer_delay ms));
      [|right; reflexivity| |right; reflexivity];
      destruct (N.ltb_spec t (timer_delay ms')); try lia; left; reflexivity.
  - intros Hover. unfold fetchWithTimeout.
    assert (timer_delay ms' = timer_delay 1) as ->; [|reflexivity].
    unfold timer_delay, in_range.
    destruct (N.leb_spec ms' 0x7FFFFFFF); [lia|]. rewrite andb_false_r. reflexivity.
Qed.

Lemma fetchWithTimeout_longer_witness :
  (fetchWithTimeout (replies 200 good_body) example_url 10000
   = fetchWithTimeout (replies 200 good_body) example_url TIMEOUT_MS \/
   fetchWithTimeout (replies 200 good_body) example_url TIMEOUT_MS = Throw AbortError) /\
  fetchWithTimeout (replies 200 good_body) example_url 0x80000000
  = fetchWithTimeout (replies 200 good_body) example_url 1.
Proof.
  split.
  - apply (proj1 (fetchWithTimeout_longer (replies 200 good_body) example_url
                    TIMEOUT_MS 10000)); unfold TIMEOUT_MS; lia.
  - apply (proj2 (fetchWithTimeout_longer (replies 200 good_body) example_url
                    TIMEOUT_MS 0x80000000)). lia.
Defined.

(** A response after 5 ms is returned with the timer at 7000 ms and aborted
    with the timer at 2^31 ms, which [setTimeout] takes as 1 ms. *)
Example fetchWithTimeout_overflow :
  let net := fun _ : jsstring => Responds 5 (mkResponse 200 (Normal [])) in
  fetchWithTimeout net example_url TIMEOUT_MS = Normal (mkResponse 200 (Normal [])) /\
  fetchWithTimeout net example_url 0x80000000 = Throw AbortError.
Proof. split; reflexivity. Qed.

(** ** The characters of a URL *)

Lemma lor_byte a b : a < 256 -> b < 256 -> N.lor a b < 256.
Proof.
  intros Ha Hb.
  destruct (N.eq_dec (N.lor a b) 0) as [->|Hz]; [lia|].
  change 256 with (2 ^ 8). apply N.log2_lt_pow2; [lia|].
  rewrite N.log2_lor.
  assert (forall x, x < 2 ^ 8 -> N.log2 x < 8) as Hlog.
  { intros x Hx. destruct (N.eq_dec x 0) as [->|Hx0]; [reflexivity|].
    apply N.log2_lt_pow2; [lia|exact Hx]. }
  apply N.max_lub_lt; apply Hlog; assumption.
Qed.

Lemma six_bits a : N.land a 0x3F < 64.
Proof.
  change 0x3F with (N.ones 6). rewrite N.land_ones. apply N.mod_lt. discriminate.
Qed.

Lemma shiftr_bound a n k : a < 2 ^ (n + k) -> N.shiftr a n < 2 ^ k.
Proof.
  intros H. rewrite N.shiftr_div_pow2. apply N.Div0.div_lt_upper_bound.
  rewrite <- N.pow_add_r. exact H.
Qed.

Lemma utf8_encode_bytes cp :
  cp < 0x110000 -> Forall (fun b => b < 256) (utf8_encode cp).
Proof.
  intros Hcp. unfold utf8_encode.
  assert (forall a, N.lor 0x80 (N.land a 0x3F) < 256) as Hcont
    by (intros a; apply lor_byte; [lia|pose proof (six_bits a); lia]).
  destruct (N.ltb_spec cp 0x80); [repeat constructor; lia|].
  destruct (N.ltb_spec cp 0x800).
  { repeat constructor; [|apply Hcont]. apply lor_byte; [lia|].
    pose proof (shiftr_bound cp 6 5). cbn in *. lia. }
  destruct (N.ltb_spec cp 0x10000).
  { repeat constructor; try apply Hcont. apply lor_byte; [lia|].
    pose proof (shiftr_bound cp 12 4). cbn in *. lia. }
  repeat constructor; try apply Hcont. apply lor_byte; [lia|].
  pose proof (shiftr_bound cp 18 3). cbn in *. lia.
Qed.

Lemma hex_digit_safe n : n < 16 -> uri_safe (hex_digit n) = true.
Proof.
  intros H. unfold uri_safe, uri_unreserved, hex_digit, in_range.
  destruct (N.ltb_spec n 10); apply orb_true_iff; left;
    repeat (apply orb_true_iff; first [left; lia | right]); exfalso; lia.
Qed.

Lemma percent_safe b : b < 256 -> Forall (fun c => uri_safe c = true) (percent b).
Proof.
  intros H. unfold percent. repeat constructor.
  - apply hex_digit_safe. pose proof (shiftr_bound b 4 4). cbn in *. lia.
  - apply hex_digit_safe. change 0xF with (N.ones 4). rewrite N.land_ones.
    apply N.mod_lt. discriminate.
Qed.

Lemma percent_encode_safe cp :
  cp < 0x110000 -> Forall (fun c => uri_safe c = true) (percent_encode cp).
Proof.
  intros H. unfold percent_encode.
  induction (utf8_encode_bytes cp H) as [|b bytes Hb _ IH]; cbn [flat_map].
  - constructor.
  - apply Forall_app. split; [apply percent_safe, Hb|exact IH].
Qed.

Lemma encodeURIComponent_safe_len n : forall s r,
  (length s <= n)%nat ->
  Forall code_unit s ->
  encodeURIComponent s = Normal r ->
  Forall (fun c => uri_safe c = true) r.
Proof.
  induction n as [|n IH]; intros [|c rest] r Hlen Hs; cbn [encodeURIComponent length] in *;
    try lia; try (intros [= <-]; constructor).
  apply Forall_cons in Hs as [Hc Hrest]. unfold code_unit in Hc.
  destruct (uri_unreserved c) eqn:U.
  - destruct (encodeURIComponent rest) as [r'|] eqn:E; cbn [bind]; [|discriminate].
    intros [= <-]. constructor.
    + unfold uri_safe. rewrite U. reflexivity.
    + apply (IH rest); [lia|exact Hrest|exact E].
  - destruct (is_low_surrogate c); [discriminate|].
    destruct (is_high_surrogate c) eqn:Hh.
    + destruct rest as [|d rest']; [discriminate|].
      destruct (is_low_surrogate d) eqn:Hl; [|discriminate].
      apply Forall_cons in Hrest as [Hd Hrest'].
      destruct (encodeURIComponent rest') as [r'|] eqn:E; cbn [bind]; [|discriminate].
      intros [= <-]. apply Forall_app. split.
      * apply percent_encode_safe.
        unfold is_high_surrogate, is_low_surrogate, in_range in *. lia.
      * cbn [length] in Hlen. apply (IH rest'); [lia|exact Hrest'|exact E].
    + destruct (encodeURIComponent rest) as [r'|] eqn:E; cbn [bind]; [|discriminate].
      intros [= <-]. apply Forall_app. split.
      * apply percent_encode_safe. lia.
      * apply (IH rest); [lia|exact Hrest|exact E].
Qed.

(** X7.  Whatever the wallet holds, the query of the URL built for it is made
    of unreserved characters and [%XX] escapes only: the wallet cannot add a
    parameter, a fragment or a space to the request. *)
Theorem buildUrl_query_safe server wallet url :
  Forall code_unit wallet ->
  buildUrl server wallet = Normal url ->
  exists query,
    url = str "http://"
          ++ (if includes server (str ":") then server else server ++ str ":31401")
          ++ str "/claimable_balances?claimant=" ++ query /\
    Forall (fun c => uri_safe c = true) query.
Proof.
  intros Hw. unfold buildUrl.
  destruct (encodeURIComponent wallet) as [query|] eqn:E; cbn [bind]; [|discriminate].
  intros [= <-]. exists query. split.
  - destruct (includes server (str ":")); reflexivity.
  - exact (encodeURIComponent_safe_len _ wallet query (le_n _) Hw E).
Qed.

Lemma buildUrl_query_safe_witness :
  exists query,
    str "http://a.example:31401/claimable_balances?claimant=W%261%23"
    = str "http://" ++ str "a.example:31401"
      ++ str "/claimable_balances?claimant=" ++ query /\
    Forall (fun c => uri_safe c = true) query.
Proof.
  apply (buildUrl_query_safe (str "a.example") (str "W&1#")).
  - repeat constructor.
  - reflexivity.
Defined.

(** ** buildUrl: the wallet can be told from the URL *)

Lemma lor_add a x n : a mod 2 ^ n = 0 -> x < 2 ^ n -> N.lor a x = a + x.
Proof.
  intros Ha Hx.
  assert (N.land a x = 0) as Hland.
  { apply N.bits_inj. intros i. rewrite N.land_spec, N.bits_0.
    destruct (N.lt_ge_cases i n) as [Hi|Hi].
    - rewrite <- (N.mod_pow2_bits_low a n i Hi), Ha, N.bits_0. reflexivity.
    - rewrite <- (N.mod_small x (2 ^ n) Hx), (N.mod_pow2_bits_high x n i Hi).
      apply andb_false_r. }
  rewrite (N.add_nocarry_lxor a x Hland). symmetry. apply N.lxor_lor, Hland.
Qed.

Lemma utf8_encode_cases cp :
  cp < 0x110000 ->
  (cp < 0x80 /\ utf8_encode cp = [cp]) \/
  (0x80 <= cp < 0x800 /\ utf8_encode cp = [0xC0 + cp / 64; 0x80 + cp mod 64]) \/
  (0x800 <= cp < 0x10000 /\
   utf8_encode cp = [0xE0 + cp / 64 / 64; 0x80 + cp / 64 mod 64; 0x80 + cp mod 64]) \/
  (0x10000 <= cp /\
   utf8_encode cp = [0xF0 + cp / 64 / 64 / 64; 0x80 + cp / 64 / 64 mod 64;
                     0x80 + cp / 64 mod 64; 0x80 + cp mod 64]).
Proof.
  intros Hcp. unfold utf8_encode.
  assert (forall a, N.land a 0x3F = a mod 64) as Hland
    by (intros a; change 0x3F with (N.ones 6); apply N.land_ones).
  assert (forall a, N.shiftr a 6 = a / 64) as H6
    by (intros a; apply N.shiftr_div_pow2).
  assert (forall a, N.shiftr a 12 = a / 64 / 64) as H12
    by (intros a; rewrite <- !H6, N.shiftr_shiftr; reflexivity).
  assert (forall a, N.shiftr a 18 = a / 64 / 64 / 64) as H18
    by (intros a; rewrite <- !H6, !N.shiftr_shiftr; reflexivity).
  assert (forall a, N.lor 0x80 (a mod 64) = 0x80 + a mod 64) as Hcont
    by (intros a; apply (lor_add 0x80 _ 6); [reflexivity|apply N.mod_lt; discriminate]).
  rewrite !Hland, H6, H12, H18, !Hcont.
  destruct (N.ltb_spec cp 0x80); [left; split; [lia|reflexivity]|].
  destruct (N.ltb_spec cp 0x800).
  { right; left. split; [lia|]. rewrite (lor_add 0xC0 _ 6); [reflexivity..|].
    apply N.Div0.div_lt_upper_bound. cbn. lia. }
  destruct (N.ltb_spec cp 0x10000).
  { right; right; left. split; [lia|]. rewrite (lor_add 0xE0 _ 5); [reflexivity..|].
    do 2 apply N.Div0.div_lt_upper_bound. cbn. lia. }
  right; right; right. split; [lia|]. rewrite (lor_add 0xF0 _ 4); [reflexivity..|].
  do 3 apply N.Div0.div_lt_upper_bound. cbn. lia.
Qed.

Lemma percent_digits b : percent b = [37; hex_digit (b / 16); hex_digit (b mod 16)].
Proof.
  unfold percent. change 0xF with (N.ones 4).
  rewrite N.land_ones, N.shiftr_div_pow2. reflexivity.
Qed.

Lemma hex_digit_inj m n : m < 16 -> n < 16 -> hex_digit m = hex_digit n -> m = n.
Proof.
  unfold hex_digit. intros Hm Hn.
  destruct (N.ltb_spec m 10), (N.ltb_spec n 10); lia.
Qed.

Lemma percent_inj b b' r r' :
  b < 256 -> b' < 256 -> percent b ++ r = percent b' ++ r' -> b = b' /\ r = r'.
Proof.
  intros Hb Hb'. rewrite !percent_digits. cbn [app]. intros [= Hh Hl Hr].
  split; [|exact Hr].
  apply hex_digit_inj in Hh; [|apply N.Div0.div_lt_upper_bound; cbn; lia..].
  apply hex_digit_inj in Hl; [|apply N.mod_lt; discriminate..].
  rewrite (N.div_mod b 16), (N.div_mod b' 16) by discriminate. congruence.
Qed.

Lemma percent_encode_inj cp cp' r r' :
  cp < 0x110000 -> cp' < 0x110000 ->
  percent_encode cp ++ r = percent_encode cp' ++ r' -> cp = cp' /\ r = r'.
Proof.
  intros Hcp Hcp'. unfold percent_encode.
  pose proof (utf8_encode_bytes cp Hcp) as Hb.
  pose proof (utf8_encode_bytes cp' Hcp') as Hb'.
  pose proof (N.div_mod cp 64) as E1. pose proof (N.mod_lt cp 64) as L1.
  pose proof (N.div_mod (cp / 64) 64) as E2. pose proof (N.mod_lt (cp / 64) 64) as L2.
  pose proof (N.div_mod (cp / 64 / 64) 64) as E3.
  pose proof (N.mod_lt (cp / 64 / 64) 64) as L3.
  pose proof (N.div_mod cp' 64) as E1'. pose proof (N.mod_lt cp' 64) as L1'.
  pose proof (N.div_mod (cp' / 64) 64) as E2'. pose proof (N.mod_lt (cp' / 64) 64) as L2'.
  pose proof (N.div_mod (cp' / 64 / 64) 64) as E3'.
  pose proof (N.mod_lt (cp' / 64 / 64) 64) as L3'.
  destruct (utf8_encode_cases cp Hcp) as [[H E]|[[H E]|[[H E]|[H E]]]];
    destruct (utf8_encode_cases cp' Hcp') as [[H' E']|[[H' E']|[[H' E']|[H' E']]]];
    rewrite E in Hb |- *; rewrite E' in Hb' |- *;
    cbn [flat_map]; rewrite <- ?app_assoc; cbn [app]; intros Heq;
    repeat match goal with
           | H : Forall _ (_ :: _) |- _ => apply Forall_cons in H as [? H]
           end;
    repeat match goal with
           | H : percent _ ++ _ = percent _ ++ _ |- _ =>
             apply percent_inj in H as [? H]; [|assumption..]
           end;
    try (split; [lia|assumption]); exfalso; lia.
Qed.

Lemma percent_encode_head cp : exists tl, percent_encode cp = 37 :: tl.
Proof.
  unfold percent_encode, utf8_encode.
  destruct (cp <? 0x80); [|destruct (cp <? 0x800); [|destruct (cp <? 0x10000)]];
    cbn [flat_map percent app]; eauto.
Qed.

Lemma percent_encoding_inj cp cp' r r' :
  cp < 0x110000 -> cp' < 0x110000 ->
  percent_encoding cp ++ r = percent_encoding cp' ++ r' -> cp = cp' /\ r = r'.
Proof.
  intros Hcp Hcp'. unfold percent_encoding.
  destruct (percent_encode_head cp) as [tl Htl].
  destruct (percent_encode_head cp') as [tl' Htl'].
  destruct (uri_unreserved cp) eqn:U, (uri_unreserved cp') eqn:U'.
  - cbn [app]. intros [= -> ->]. split; reflexivity.
  - rewrite Htl'. cbn [app]. intros [= -> _]. discriminate.
  - rewrite Htl. cbn [app]. intros [= <- _]. discriminate.
  - apply percent_encode_inj; assumption.
Qed.

Lemma percent_encodings_inj cps : forall cps',
  Forall (fun cp => cp < 0x110000) cps -> Forall (fun cp => cp < 0x110000) cps' ->
  flat_map percent_encoding cps = flat_map percent_encoding cps' -> cps = cps'.
Proof.
  assert (forall cp r, percent_encoding cp ++ r <> []) as Hne.
  { intros cp r. unfold percent_encoding.
    destruct (percent_encode_head cp) as [tl ->].
    destruct (uri_unreserved cp); discriminate. }
  induction cps as [|cp cps IH]; intros [|cp' cps'] H H'; cbn [flat_map]; intros E.
  - reflexivity.
  - symmetry in E. apply Hne in E. contradiction.
  - apply Hne in E. contradiction.
  - apply Forall_cons in H as [Hcp H]. apply Forall_cons in H' as [Hcp' H'].
    apply percent_encoding_inj in E as [-> E]; [|assumption..].
    f_equal. exact (IH cps' H H' E).
Qed.

(** The code point of a surrogate pair. *)
Lemma surrogate_pair c d :
  is_high_surrogate c = true -> is_low_surrogate d = true ->
  0xD800 <= c < 0xDC00 /\ 0xDC00 <= d < 0xE000 /\
  0x10000 <= (c - 0xD800) * 0x400 + (d - 0xDC00) + 0x10000 < 0x110000.
Proof.
  unfold is_high_surrogate, is_low_surrogate, in_range. intros Hc Hd.
  apply andb_prop in Hc, Hd. lia.
Qed.

(** What the first code point of a string is made of. *)
Lemma code_points_cons c rest cps :
  code_points (c :: rest) = Some cps ->
  (is_high_surrogate c = false /\
   exists cps', code_points rest = Some cps' /\ cps = c :: cps') \/
  (exists d tail cps', rest = d :: tail /\
     is_high_surrogate c = true /\ is_low_surrogate d = true /\
     code_points tail = Some cps' /\
     cps = ((c - 0xD800) * 0x400 + (d - 0xDC00) + 0x10000) :: cps').
Proof.
  cbn [code_points]. destruct (is_high_surrogate c) eqn:Hh.
  - destruct rest as [|d tail]; [discriminate|].
    destruct (is_low_surrogate d) eqn:Hl; [|discriminate].
    destruct (code_points tail) as [cps'|] eqn:E; [|discriminate].
    simpl. intros [= <-]. right. exists d, tail, cps'.
    repeat split; first [assumption|reflexivity].
  - destruct (is_low_surrogate c); [discriminate|].
    destruct (code_points rest) as [cps'|] eqn:E; [|discriminate].
    simpl. intros [= <-]. left. split; [reflexivity|]. exists cps'. split; reflexivity.
Qed.

Lemma code_points_bound_len n : forall s cps,
  (length s <= n)%nat -> Forall code_unit s -> code_points s = Some cps ->
  Forall (fun cp => cp < 0x110000) cps.
Proof.
  induction n as [|n IH]; intros [|c rest] cps Hlen Hs E; cbn [length] in Hlen;
    try lia; try (injection E as <-; constructor).
  apply Forall_cons in Hs as [Hc Hs]. unfold code_unit in Hc.
  apply code_points_cons in E
    as [(_ & cps' & E & ->)|(d & tail & cps' & -> & Hh & Hl & E & ->)].
  - constructor; [lia|]. apply (IH rest); [lia|assumption..].
  - apply Forall_cons in Hs as [_ Hs]. cbn [length] in Hlen.
    constructor; [apply (surrogate_pair c d Hh Hl)|].
    apply (IH tail); [lia|assumption..].
Qed.

Lemma code_points_inj_len n : forall s s' cps,
  (length s <= n)%nat -> Forall code_unit s -> Forall code_unit s' ->
  code_points s = Some cps -> code_points s' = Some cps -> s = s'.
Proof.
  induction n as [|n IH]; intros [|c rest] [|c' rest'] cps Hlen Hs Hs' E E';
    cbn [length] in Hlen; try lia; try reflexivity;
    try (injection E as <-; apply code_points_cons in E'
           as [(_ & ? & _ & ?)|(? & ? & ? & _ & _ & _ & _ & ?)]; discriminate);
    try (injection E' as <-; apply code_points_cons in E
           as [(_ & ? & _ & ?)|(? & ? & ? & _ & _ & _ & _ & ?)]; discriminate).
  apply Forall_cons in Hs as [Hc Hs]. apply Forall_cons in Hs' as [Hc' Hs'].
  unfold code_unit in Hc, Hc'.
  apply code_points_cons in E
    as [(_ & cps1 & E & ->)|(d & tail & cps1 & -> & Hh & Hl & E & ->)];
    apply code_points_cons in E'
    as [(_ & cps2 & E' & Heq)|(d' & tail' & cps2 & -> & Hh' & Hl' & E' & Heq)].
  - injection Heq as -> ->. f_equal. apply (IH rest rest' cps2); [lia|assumption..].
  - injection Heq as Heq _. pose proof (surrogate_pair c' d' Hh' Hl'). lia.
  - injection Heq as Heq _. pose proof (surrogate_pair c d Hh Hl). lia.
  - injection Heq as Heq ->.
    pose proof (surrogate_pair c d Hh Hl). pose proof (surrogate_pair c' d' Hh' Hl').
    apply Forall_cons in Hs as [_ Hs]. apply Forall_cons in Hs' as [_ Hs'].
    cbn [length] in Hlen.
    assert (c = c') as -> by lia. assert (d = d') as -> by lia.
    do 2 f_equal. apply (IH tail tail' cps2); [lia|assumption..].
Qed.

(** X8.  For one server, two wallets probed at the same URL are the same
    wallet: the percent-encoding loses nothing of a wallet made of UTF-16 code
    units. *)
Theorem buildUrl_wallet_injective server wallet wallet' url :
  Forall code_unit wallet -> Forall code_unit wallet' ->
  buildUrl server wallet = Normal url -> buildUrl server wallet' = Normal url ->
  wallet = wallet'.
Proof.
  intros Hw Hw'. unfold buildUrl.
  destruct (code_points wallet) as [cps|] eqn:E;
    [|rewrite (encodeURIComponent_ill_formed wallet E); discriminate].
  destruct (code_points wallet') as [cps'|] eqn:E';
    [|rewrite (encodeURIComponent_ill_formed wallet' E'); discriminate].
  rewrite (encodeURIComponent_code_points wallet cps E).
  rewrite (encodeURIComponent_code_points wallet' cps' E').
  cbn [bind]. intros H H'.
  assert (flat_map percent_encoding cps = flat_map percent_encoding cps') as Heq.
  { rewrite <- H' in H. clear H'. revert H.
    generalize (flat_map percent_encoding cps), (flat_map percent_encoding cps').
    intros q q' H. assert (forall a b : jsstring, Normal a = Normal b -> a = b) as Hinj
      by (intros a b; congruence).
    apply Hinj in H. do 3 apply app_inv_head in H. exact H. }
  apply percent_encodings_inj in Heq.
  - subst cps'. exact (code_points_inj_len (length wallet) _ _ cps (le_n _) Hw Hw' E E').
  - exact (code_points_bound_len (length wallet) _ _ (le_n _) Hw E).
  - exact (code_points_bound_len (length wallet') _ _ (le_n _) Hw' E').
Qed.

Lemma buildUrl_wallet_injective_witness :
  buildUrl (str "a.example") (str "W 1")
  = Normal (str "http://a.example:31401/claimable_balances?claimant=W%201") /\
  str "W 1" = str "W 1".
Proof.
  split; [reflexivity|].
  apply (buildUrl_wallet_injective (str "a.example") (str "W 1") (str "W 1")
           (str "http://a.example:31401/claimable_balances?claimant=W%201")).
  - repeat constructor.
  - repeat constructor.
  - reflexivity.
  - reflexivity.
Defined.

(** ** The lines of a file *)

Lemma split_lines_first s : forall first others,
  split_lines s = first :: others -> exists post, s = first ++ post.
Proof.
  induction s as [|d s IH]; intros first others; cbn [split_lines].
  - intros [= <- _]. exists []. reflexivity.
  - destruct (d =? 10); [intros [= <- _]; exists (d :: s); reflexivity|].
    destruct s as [|d' s'].
    + rewrite andb_false_r. cbn [split_lines]. intros [= <- _]. exists []. reflexivity.
    + destruct (d' =? 10) eqn:Hd'.
      * destruct (d =? 13); cbn [andb].
        -- cbn [split_lines]. rewrite Hd'. intros [= <- _]. exists (d :: d' :: s').
           reflexivity.
        -- cbn [split_lines]. rewrite Hd'. intros [= <- _]. exists (d' :: s').
           reflexivity.
      * rewrite andb_false_r.
        destruct (split_lines (d' :: s')) as [|f o] eqn:E; intros [= <- _].
        -- destruct (split_lines_nonempty _ E).
        -- destruct (IH f o eq_refl) as [post ->]. exists post. reflexivity.
Qed.

Lemma split_lines_part s piece : piece ∈ split_lines s -> part_of piece s.
Proof.
  revert piece. induction s as [|d s IH]; intros piece; cbn [split_lines].
  - intros H. apply list_elem_of_singleton in H as ->. exists [], []. reflexivity.
  - assert (forall p, p ∈ split_lines s -> part_of p (d :: s)) as Hlater.
    { intros p Hp. destruct (IH p Hp) as (pre & post & ->).
      exists (d :: pre), post. reflexivity. }
    destruct (d =? 10).
    { intros H. apply elem_of_cons in H as [->|H]; [|exact (Hlater _ H)].
      exists [], (d :: s). reflexivity. }
    destruct ((d =? 13) && _); [exact (Hlater piece)|].
    destruct (split_lines s) as [|first others] eqn:E.
    + destruct (split_lines_nonempty _ E).
    + intros H. apply elem_of_cons in H as [->|H].
      * destruct (split_lines_first s first others E) as [post ->].
        exists [], post. reflexivity.
      * apply Hlater. right. exact H.
Qed.

Lemma trim_part p : part_of (trim p) p.
Proof.
  unfold trim. destruct (trimStart_suffix p) as [pre Hpre].
  destruct (trimStart_suffix (rev (trimStart p))) as [post Hpost].
  exists pre, (rev post). rewrite <- rev_app_distr, <- Hpost, rev_involutive.
  exact Hpre.
Qed.

(** X9.  Every line the loader gives is clean (nothing to trim, not empty, no
    line feed in it) and is a contiguous part of the text of the file. *)
Theorem read_lines_all_clean raw :
  Forall (fun l => clean l /\ part_of l raw) (read_lines raw).
Proof.
  apply Forall_forall. intros l Hl. split; [exact (read_lines_clean raw l Hl)|].
  unfold read_lines in Hl. apply list_elem_of_In, filter_In in Hl as [Hl _].
  apply in_map_iff in Hl as (piece & <- & Hp). apply list_elem_of_In in Hp.
  destruct (split_lines_part raw piece Hp) as (pre & post & ->).
  destruct (trim_part piece) as (pre' & post' & Hpiece).
  exists (pre ++ pre'), (post' ++ post). rewrite Hpiece at 1.
  rewrite <- !app_assoc. reflexivity.
Qed.

Lemma split_lines_crlf s rest :
  10 ∉ s -> split_lines (s ++ 13 :: 10 :: rest) = s :: split_lines rest.
Proof.
  induction s as [|c s IH]; intros Hlf; [reflexivity|].
  apply not_elem_of_cons in Hlf as [Hc Hlf].
  cbn [app split_lines]. rewrite (IH Hlf).
  destruct (N.eqb_spec c 10) as [->|_]; [contradiction|].
  replace (match s ++ 13 :: 10 :: rest with d :: _ => d =? 10 | [] => false end)
    with false; [rewrite andb_false_r; reflexivity|].
  destruct s as [|d s]; [reflexivity|]. cbn [app].
  apply not_elem_of_cons in Hlf as [Hd _].
  destruct (N.eqb_spec d 10); [congruence|reflexivity].
Qed.

Lemma read_lines_cons s pieces_of :
  clean s ->
  List.filter nonempty (map trim (s :: pieces_of))
  = s :: List.filter nonempty (map trim pieces_of).
Proof.
  intros (Ht & Hne & _). cbn [map List.filter]. rewrite (trimmed_trim s Ht).
  destruct s; [contradiction|reflexivity].
Qed.

(** X10.  Clean lines written one per line are read back as they are, in
    order, whether each ends with a line feed or with a carriage return and a
    line feed. *)
Theorem read_lines_round_trip ls :
  Forall clean ls ->
  read_lines (flat_map (fun l => l ++ LF) ls) = ls /\
  read_lines (flat_map (fun l => l ++ [13; 10]) ls) = ls.
Proof.
  unfold read_lines. induction 1 as [|s ls Hs _ [IH1 IH2]]; [split; reflexivity|].
  pose proof Hs as (Ht & Hne & Hlf). cbn [flat_map]. split.
  - rewrite <- app_assoc. cbn [LF app].
    rewrite (split_lines_line s _ Hlf (trimmed_last s Ht)).
    rewrite (read_lines_cons s _ Hs), IH1. reflexivity.
  - rewrite <- app_assoc. cbn [app].
    rewrite (split_lines_crlf s _ Hlf).
    rewrite (read_lines_cons s _ Hs), IH2. reflexivity.
Qed.

Lemma read_lines_round_trip_witness :
  read_lines (flat_map (fun l => l ++ LF) [str "a.example"; str "b c:80"])
  = [str "a.example"; str "b c:80"] /\
  read_lines (flat_map (fun l => l ++ [13; 10]) [str "a.example"; str "b c:80"])
  = [str "a.example"; str "b c:80"].
Proof.
  apply read_lines_round_trip.
  repeat constructor; try discriminate;
    intros H; apply list_elem_of_In in H; vm_compute in H; intuition discriminate.
Defined.

Lemma split_lines_elements s piece c :
  piece ∈ split_lines s -> c ∈ piece -> c ∈ s.
Proof.
  revert piece. induction s as [|d s IH]; intros piece; cbn [split_lines].
  - intros H. apply list_elem_of_singleton in H as ->. auto.
  - destruct (d =? 10).
    { intros H Hc. apply elem_of_cons in H as [->|H];
        [apply elem_of_nil in Hc; contradiction|right; eauto]. }
    destruct ((d =? 13) && _); [intros H Hc; right; eauto|].
    destruct (split_lines s) as [|first others]; intros H Hc.
    + apply list_elem_of_singleton in H as ->. apply list_elem_of_singleton in Hc as ->.
      left.
    + apply elem_of_cons in H as [->|H].
      * apply elem_of_cons in Hc as [->|Hc]; [left|right].
        apply (IH first); [left|exact Hc].
      * right. apply (IH piece); [right; exact H|exact Hc].
Qed.

Lemma trimStart_spaces s : Forall (fun c => is_space c = true) s -> trimStart s = [].
Proof. induction 1 as [|c s Hc _ IH]; [reflexivity|]. cbn [trimStart]. rewrite Hc. exact IH. Qed.

(** A file of white space only (blanks, tabs, line ends) has no line. *)
Lemma read_lines_blank raw :
  Forall (fun c => is_space c = true) raw -> read_lines raw = [].
Proof.
  intros Hraw. unfold read_lines.
  assert (forall pieces, (forall p, p ∈ pieces -> p ∈ split_lines raw) ->
            List.filter nonempty (map trim pieces) = []) as H.
  { induction pieces as [|p pieces IH]; intros Hin; [reflexivity|].
    cbn [map List.filter].
    assert (trim p = []) as ->.
    { unfold trim. rewrite (trimStart_spaces p); [reflexivity|].
      apply Forall_forall. intros c Hc. rewrite Forall_forall in Hraw.
      apply Hraw. apply (split_lines_elements raw p c); [apply Hin; left|exact Hc]. }
    cbn [nonempty]. apply IH. intros q Hq. apply Hin. right. exact Hq. }
  apply H. auto.
Qed.

(** X11.  When both input files can be read and [servers.txt] holds white
    space only, [main] exits at set-up for an empty server list, whatever
    [wallets.txt] holds, and changes no file. *)
Theorem blank_servers_file_is_empty (fs : gmap string jsstring) net
    (sraw wraw : jsstring) :
  fs !! SERVERS_FILE = Some sraw -> fs !! WALLETS_FILE = Some wraw ->
  Forall (fun c => is_space c = true) sraw ->
  main fs net = SetupFailed (EmptyList SERVERS_FILE) fs.
Proof.
  intros Hs Hw Hblank. unfold main, setup, readFile. rewrite Hs, Hw.
  rewrite (read_lines_blank sraw Hblank). reflexivity.
Qed.

Lemma blank_servers_file_is_empty_witness :
  main (<[SERVERS_FILE := [32; 13; 10; 9; 10]]> (<[WALLETS_FILE := str "W1"]> ∅))
       good_net
  = SetupFailed (EmptyList SERVERS_FILE)
      (<[SERVERS_FILE := [32; 13; 10; 9; 10]]> (<[WALLETS_FILE := str "W1"]> ∅)).
Proof.
  apply (blank_servers_file_is_empty _ _ [32; 13; 10; 9; 10] (str "W1"));
    [reflexivity|reflexivity|repeat constructor].
Defined.

Lemma split_lines_covers raw c :
  c ∈ raw -> is_space c = false -> exists piece, piece ∈ split_lines raw /\ c ∈ piece.
Proof.
  intros Hin Hc. induction raw as [|d s IH]; [apply elem_of_nil in Hin; contradiction|].
  assert (d = c \/ exists piece, piece ∈ split_lines s /\ c ∈ piece) as [->|Hs].
  { apply elem_of_cons in Hin as [->|Hin]; [left; reflexivity|right; exact (IH Hin)]. }
  - cbn [split_lines].
    destruct (N.eqb_spec c 10) as [->|_]; [discriminate|].
    destruct (N.eqb_spec c 13) as [->|_]; [discriminate|]. cbn [andb].
    destruct (split_lines s) as [|piece others].
    + exists [c]. split; left.
    + exists (c :: piece). split; left.
  - destruct Hs as (piece & Hp & Hcp). cbn [split_lines].
    destruct (d =? 10); [exists piece; split; [right; exact Hp|exact Hcp]|].
    destruct ((d =? 13) && _); [exists piece; split; [exact Hp|exact Hcp]|].
    destruct (split_lines s) as [|first others];
      [apply elem_of_nil in Hp; contradiction|].
    apply elem_of_cons in Hp as [->|Hp].
    + exists (d :: first). split; [left|right; exact Hcp].
    + exists piece. split; [right; exact Hp|exact Hcp].
Qed.

Lemma trimStart_keeps s c : c ∈ s -> is_space c = false -> c ∈ trimStart s.
Proof.
  intros Hin Hc. induction s as [|d s IH]; [exact Hin|]. cbn [trimStart].
  destruct (is_space d) eqn:Hd; [|exact Hin].
  apply elem_of_cons in Hin as [->|Hin]; [congruence|exact (IH Hin)].
Qed.

Lemma trim_keeps s c : c ∈ s -> is_space c = false -> c ∈ trim s.
Proof.
  intros Hin Hc. unfold trim. apply elem_of_rev, trimStart_keeps; [|exact Hc].
  apply elem_of_rev, trimStart_keeps; assumption.
Qed.

(** X12.  A file gives no line exactly when it holds white space only: any
    other character is on a line that survives trimming. *)
Theorem read_lines_empty_iff raw :
  read_lines raw = [] <-> Forall (fun c => is_space c = true) raw.
Proof.
  split; [|apply read_lines_blank].
  intros Hnone. apply Forall_forall. intros c Hin.
  destruct (is_space c) eqn:Hc; [reflexivity|exfalso].
  destruct (split_lines_covers raw c Hin Hc) as (piece & Hp & Hcp).
  assert (trim piece ∈ read_lines raw) as Hline.
  { unfold read_lines. apply list_elem_of_In, filter_In. split.
    - apply in_map, list_elem_of_In, Hp.
    - pose proof (trim_keeps piece c Hcp Hc) as Hk.
      destruct (trim piece); [apply elem_of_nil in Hk; contradiction|reflexivity]. }
  rewrite Hnone in Hline. apply elem_of_nil in Hline. exact Hline.
Qed.

(** ** Runs: what a probe leaves behind *)

Section Probes.

Variables servers wallets : list jsstring.
Variable net : nat -> jsstring -> NetBehaviour.

(** A step is a move that leaves the state alone or one whole probe. *)
Lemma step_cases pc st pc' st' :
  step servers wallets net (pc, st) = Some (pc', st') ->
  (st' = st /\
   ((exists i, pc = AtServer i /\ servers !! i = None /\ pc' = Finished) \/
    (exists i server, pc = AtServer i /\ servers !! i = Some server /\
       (server ∈ validList st) /\ pc' = AtServer (S i)) \/
    (exists i server, pc = AtServer i /\ servers !! i = Some server /\
       (server ∉ validList st) /\ pc' = AtWallet i server 0) \/
    (exists i server j, pc = AtWallet i server j /\ wallets !! j = None /\
       pc' = AtServer (S i)) \/
    (exists i server j wallet e, pc = AtWallet i server j /\
       wallets !! j = Some wallet /\ buildUrl server wallet = Throw e /\
       pc' = Crashed e))) \/
  (exists i server j wallet url r,
     pc = AtWallet i server j /\ wallets !! j = Some wallet /\
     buildUrl server wallet = Normal url /\
     checkUrl (net (probes_issued st)) url = Normal r /\
     st' = after_probe server wallet url r st /\
     pc' = match status r with
           | valid => AtServer (S i)
           | _ => AtWallet i server (S j)
           end).
Proof.
  intros Hstep. pose proof Hstep as Hinv.
  apply step_inv in Hinv
    as [H|(i & server & j & wallet & url & r & _ & _ & -> & Hw & Hurl & Hr & _)];
    [left; exact H|].
  right. exists i, server, j, wallet, url, r.
  repeat split; try assumption;
    cbn [step] in Hstep; rewrite Hw, Hurl in Hstep; cbv zeta in Hstep;
    rewrite Hr in Hstep; unfold after_probe, entry, line_for;
    destruct (status r); injection Hstep as <- <-;
    cbn [append push_valid bump record_probe files validList stats log fst snd];
    rewrite <- ?app_assoc; reflexivity.
Qed.

End Probes.

(** ** Runs: how long, and how they end *)

Section Bounds.

Variables servers wallets : list jsstring.
Variable net : nat -> jsstring -> NetBehaviour.

Lemma probes_issued_after_probe server wallet url r st :
  probes_issued (after_probe server wallet url r st) = S (probes_issued st).
Proof.
  unfold probes_issued, after_probe, entry. cbn [log].
  rewrite List.filter_app, length_app. cbn. lia.
Qed.

Lemma probes_bound_step c c' :
  probes_bound servers wallets c.1 (probes_issued c.2) ->
  step servers wallets net c = Some c' ->
  probes_bound servers wallets c'.1 (probes_issued c'.2).
Proof.
  destruct c as [pc st], c' as [pc' st']. cbn [fst snd]. intros Hb Hstep.
  apply step_cases in Hstep
    as [[-> Hmove]|(i & server & j & wallet & url & r & -> & Hw & _ & _ & -> & ->)].
  - destruct Hmove as [H|[H|[H|[H|H]]]];
      repeat match type of H with ex _ => destruct H as [? H] end;
      destruct_and?; simplify_eq; cbn [probes_bound] in *;
      repeat match goal with
             | H : _ !! _ = Some _ |- _ => apply lookup_lt_Some in H
             | H : _ !! _ = None |- _ => apply lookup_ge_None in H
             end; nia.
  - apply lookup_lt_Some in Hw. rewrite probes_issued_after_probe.
    cbn [probes_bound] in Hb.
    destruct (status r); cbn [probes_bound]; nia.
Qed.

Lemma crash_cause_step c c' :
  step servers wallets net c = Some c' -> crash_cause wallets c'.1.
Proof.
  destruct c as [pc st], c' as [pc' st']. cbn [fst snd]. intros Hstep.
  apply step_cases in Hstep
    as [[-> Hmove]|(i & server & j & wallet & url & r & -> & Hw & _ & _ & -> & ->)].
  - destruct Hmove as [(? & _ & _ & ->)|[(? & ? & _ & _ & _ & ->)|
                      [(? & ? & _ & _ & _ & ->)|[(? & ? & ? & _ & _ & ->)|
                      (i & server & j & wallet & e & _ & Hw & Hurl & ->)]]]];
      try exact I.
    cbn [crash_cause]. unfold buildUrl in Hurl.
    destruct (code_points wallet) as [cps|] eqn:Hcp.
    + rewrite (encodeURIComponent_code_points _ _ Hcp) in Hurl. discriminate.
    + rewrite (encodeURIComponent_ill_formed _ Hcp) in Hurl.
      injection Hurl as <-. split; [reflexivity|].
      exists wallet. split; [|exact Hcp]. apply list_elem_of_lookup. eauto.
  - destruct (status r); exact I.
Qed.

End Bounds.

(** X13.  The loops end: the configuration [main] stops in, after at most
    [servers * (wallets + 2) + 1] steps, has no next step and is after the
    last server or a crash; and at no point of a run have more probes been
    issued than there are pairs of a server and a wallet. *)
Theorem run_ends_and_probes_bounded fs net servers wallets :
  (forall c, main fs net = Ran servers wallets c ->
     step servers wallets net c = None /\
     (c.1 = Finished \/ exists e, c.1 = Crashed e)) /\
  (forall c, in_run fs net servers wallets c ->
     (probes_issued c.2 <= length servers * length wallets)%nat).
Proof.
  split.
  - intros [pc st] Hmain. pose proof (main_halts _ _ _ _ _ Hmain) as Hhalt.
    split; [exact Hhalt|]. cbn [fst].
    destruct pc as [i|i server j| |e]; eauto.
    + exfalso. cbn [step] in Hhalt. destruct (servers !! i); [|discriminate].
      destruct (bool_decide _); discriminate.
    + exfalso. cbn [step] in Hhalt. destruct (wallets !! j) as [w|]; [|discriminate].
      destruct (buildUrl server w); [|discriminate]. cbv zeta in Hhalt.
      destruct (checkUrl _ _) as [r|]; [|discriminate].
      destruct (status r); discriminate.
  - intros c (st & Hsetup & Hreach).
    apply setup_inr in Hsetup as (-> & _).
    assert (probes_bound servers wallets c.1 (probes_issued c.2)) as Hb.
    { revert Hreach.
      apply (reaches_invariant _ _ _
               (fun c => probes_bound servers wallets c.1 (probes_issued c.2))).
      - cbn. lia.
      - apply probes_bound_step. }
    destruct c as [[i|i server j| |e] st]; cbn [probes_bound fst snd] in *; nia.
Qed.

(** X14.  A run crashes only on a wallet that is not well-formed UTF-16, with
    [URIError]; when every wallet is well-formed it ends after the last server
    and the exit code is 0. *)
Theorem run_crashes_only_on_ill_formed_wallet fs net servers wallets c :
  main fs net = Ran servers wallets c ->
  (forall e, c.1 = Crashed e ->
     e = URIError /\ exists w, w ∈ wallets /\ code_points w = None) /\
  ((forall w, w ∈ wallets -> is_Some (code_points w)) ->
   c.1 = Finished /\ exit_code (main fs net) = 0).
Proof.
  intros Hmain.
  assert (crash_cause wallets c.1) as Hcause.
  { destruct (main_in_run _ _ _ _ _ Hmain) as (st & _ & Hreach).
    revert Hreach.
    apply (reaches_invariant _ _ _ (fun c => crash_cause wallets c.1)); [exact I|].
    intros c1 c2 _ Hstep. exact (crash_cause_step _ _ _ _ _ Hstep). }
  split.
  - intros e He. rewrite He in Hcause. exact Hcause.
  - intros Hwf.
    assert (c.1 = Finished) as Hfin.
    { pose proof (main_halts _ _ _ _ _ Hmain) as Hhalt.
      destruct c as [[i|i server j| |e] st]; cbn [fst] in *; [| |reflexivity|].
      - exfalso. cbn [step] in Hhalt. destruct (servers !! i); [|discriminate].
        destruct (bool_decide _); discriminate.
      - exfalso. cbn [step] in Hhalt. destruct (wallets !! j) as [w|]; [|discriminate].
        destruct (buildUrl server w); [|discriminate]. cbv zeta in Hhalt.
        destruct (checkUrl _ _) as [r|]; [|discriminate].
        destruct (status r); discriminate.
      - exfalso. destruct Hcause as (_ & w & Hw & Hnone).
        destruct (Hwf w Hw) as [cps Hcps]. congruence. }
    split; [exact Hfin|]. rewrite Hmain. destruct c as [pc st]. cbn [fst] in Hfin.
    rewrite Hfin. reflexivity.
Qed.

(** ** Runs: the files against the log *)

Lemma count_status_snoc s ps p :
  count_status s (ps ++ [p])
  = count_status s ps + (if has_status s p then 1 else 0).
Proof.
  unfold count_status. rewrite List.filter_app, length_app. cbn [List.filter].
  destruct (has_status s p); cbn [length]; lia.
Qed.

Lemma accounted_after_probe known ps server wallet url r st :
  accounted known ps st ->
  accounted known (ps ++ [(server, wallet, url, r)])
            (after_probe server wallet url r st).
Proof.
  intros (Hlog & Hstats & Hvalid). unfold accounted, after_probe.
  cbn [log stats validList bump]. rewrite Hlog, Hstats, Hvalid.
  rewrite flat_map_app, !count_status_snoc, List.filter_app, map_app.
  cbn [flat_map List.filter has_status snd n_valid n_novalid n_timeout].
  rewrite app_nil_r. split; [reflexivity|].
  destruct (status r); cbn [map fst app]; rewrite ?app_nil_r, ?N.add_0_r, ?app_assoc;
    split; reflexivity.
Qed.

Lemma written_app file evs evs' :
  written file (evs ++ evs') = written file evs ++ written file evs'.
Proof. apply flat_map_app. Qed.

Lemma written_entry file server wallet url r :
  written file (entry (server, wallet, url, r))
  = if String.eqb (line_for server wallet r).1 file
    then (line_for server wallet r).2 else [].
Proof.
  cbn [written entry flat_map app].
  destruct (String.eqb _ file); [apply app_nil_r|reflexivity].
Qed.

Lemma files_match_after_probe fs server wallet url r st :
  files_match_log fs st ->
  files_match_log fs (after_probe server wallet url r st).
Proof.
  intros (Hn & Ht & Hv & Ho). unfold files_match_log, after_probe. cbn [files log].
  rewrite !written_app, !written_entry. unfold appendFile.
  assert (forall f line file, file <> f ->
            <[f := line]> (files st) !! file = files st !! file) as Hne
    by (intros f line file H; apply lookup_insert_ne; congruence).
  unfold line_for. destruct (status r); cbn [fst snd].
  - change (String.eqb "valid.txt" "novalid.txt") with false.
    change (String.eqb "valid.txt" "timeout.txt") with false.
    change (String.eqb "valid.txt" "valid.txt") with true.
    rewrite !app_nil_r. rewrite !Hne by discriminate.
    repeat split; try assumption.
    + unfold valid_txt in *. rewrite lookup_insert_eq. cbn [default].
      rewrite Hv, <- !app_assoc. reflexivity.
    + intros file H1 H2 H3. rewrite Hne by congruence. auto.
  - change (String.eqb "novalid.txt" "novalid.txt") with true.
    change (String.eqb "novalid.txt" "timeout.txt") with false.
    change (String.eqb "novalid.txt" "valid.txt") with false.
    rewrite !app_nil_r. rewrite (Hne _ _ "timeout.txt"%string) by discriminate.
    repeat split; try assumption.
    + rewrite lookup_insert_eq. do 2 f_equal. exact (f_equal (default []) Hn).
    + unfold valid_txt in *. rewrite (Hne _ _ "valid.txt"%string) by discriminate.
      exact Hv.
    + intros file H1 H2 H3. rewrite Hne by congruence. auto.
  - change (String.eqb "timeout.txt" "novalid.txt") with false.
    change (String.eqb "timeout.txt" "timeout.txt") with true.
    change (String.eqb "timeout.txt" "valid.txt") with false.
    rewrite !app_nil_r. rewrite (Hne _ _ "novalid.txt"%string) by discriminate.
    repeat split; try assumption.
    + rewrite lookup_insert_eq. do 2 f_equal. exact (f_equal (default []) Ht).
    + unfold valid_txt in *. rewrite (Hne _ _ "valid.txt"%string) by discriminate.
      exact Hv.
    + intros file H1 H2 H3. rewrite Hne by congruence. auto.
Qed.

Section Accounts.

Variables servers wallets : list jsstring.
Variable net : nat -> jsstring -> NetBehaviour.

Lemma accounted_step fs known c c' :
  (exists ps, accounted known ps c.2) /\ files_match_log fs c.2 ->
  step servers wallets net c = Some c' ->
  (exists ps, accounted known ps c'.2) /\ files_match_log fs c'.2.
Proof.
  destruct c as [pc st], c' as [pc' st']. cbn [fst snd]. intros [(ps & Hps) Hfiles] Hstep.
  apply step_cases in Hstep
    as [[-> _]|(i & server & j & wallet & url & r & _ & _ & _ & _ & -> & _)].
  - eauto.
  - split.
    + eexists. apply accounted_after_probe, Hps.
    + apply files_match_after_probe, Hfiles.
Qed.

End Accounts.

Lemma accounted_run fs net servers wallets c :
  in_run fs net servers wallets c ->
  (exists ps, accounted (load_validList fs) ps c.2) /\ files_match_log fs c.2.
Proof.
  intros (st & Hsetup & Hreach). apply setup_inr in Hsetup as (-> & _).
  revert Hreach.
  apply (reaches_invariant _ _ _
           (fun c => (exists ps, accounted (load_validList fs) ps c.2) /\
                     files_match_log fs c.2)).
  - split.
    + exists []. repeat split. cbn. rewrite app_nil_r. reflexivity.
    + unfold files_match_log, writeFile, valid_txt. cbn [snd files log written flat_map].
      rewrite app_nil_r.
      rewrite lookup_insert_ne, lookup_insert_eq by discriminate.
      rewrite lookup_insert_eq. rewrite !lookup_insert_ne by discriminate.
      repeat split. intros file _ H2 H3. rewrite !lookup_insert_ne by congruence.
      reflexivity.
  - apply accounted_step.
Qed.

(** X15.  At every point of a run the state is the sum of the probes made so
    far: the log pairs each probe with the one line written for it, in the
    file and the format of its status; each counter is the number of probes of
    its status; and the valid list is the list loaded followed by the servers
    found valid, in order. *)
Theorem run_state_is_its_probes fs net servers wallets c :
  in_run fs net servers wallets c ->
  exists ps,
    log c.2 = flat_map entry ps /\
    stats c.2 = mkStats (count_status valid ps) (count_status novalid ps)
                        (count_status timeout ps) /\
    validList c.2
    = load_validList fs ++ map (fun p => p.1.1.1) (List.filter (has_status valid) ps).
Proof. intros Hrun. exact (proj1 (accounted_run _ _ _ _ _ Hrun)). Qed.

(** X16.  At every point of a run, [novalid.txt] and [timeout.txt] hold
    exactly the lines the run has appended to them (what they held before is
    gone), [valid.txt] holds what it held before the run followed by the lines
    appended, and every other file is as it was. *)
Theorem run_files_are_its_lines fs net servers wallets c :
  in_run fs net servers wallets c ->
  files c.2 !! "novalid.txt" = Some (written "novalid.txt" (log c.2)) /\
  files c.2 !! "timeout.txt" = Some (written "timeout.txt" (log c.2)) /\
  valid_txt (files c.2) = valid_txt fs ++ written "valid.txt" (log c.2) /\
  forall file, file <> "valid.txt"%string -> file <> "novalid.txt"%string ->
               file <> "timeout.txt"%string -> files c.2 !! file = fs !! file.
Proof. intros Hrun. exact (proj2 (accounted_run _ _ _ _ _ Hrun)). Qed.

(** ** Runs: which probes are made *)

Lemma probes_issued_entries st ps :
  log st = flat_map entry ps -> probes_issued st = length ps.
Proof.
  unfold probes_issued. intros ->.
  induction ps as [|[[[s w] u] r] ps IH]; [reflexivity|].
  cbn [flat_map entry app List.filter is_probe length]. rewrite IH. reflexivity.
Qed.

Lemma entries_inj ps : forall ps', flat_map entry ps = flat_map entry ps' -> ps = ps'.
Proof.
  induction ps as [|[[[s w] u] r] ps IH]; intros [|[[[s' w'] u'] r'] ps'];
    cbn [flat_map entry app]; try discriminate; [reflexivity|].
  intros H. simplify_eq. f_equal. eauto.
Qed.

Section Genuine.

Variables servers wallets : list jsstring.
Variable net : nat -> jsstring -> NetBehaviour.

Lemma genuine_step c c' :
  (exists ps, log c.2 = flat_map entry ps /\ genuine servers wallets net ps) /\
  (forall i s j, c.1 = AtWallet i s j -> s ∈ servers) ->
  step servers wallets net c = Some c' ->
  (exists ps, log c'.2 = flat_map entry ps /\ genuine servers wallets net ps) /\
  (forall i s j, c'.1 = AtWallet i s j -> s ∈ servers).
Proof.
  destruct c as [pc st], c' as [pc' st']. cbn [fst snd].
  intros [(ps & Hlog & Hps) Hcur] Hstep.
  apply step_cases in Hstep
    as [[-> Hmove]|(i & server & j & wallet & url & r & -> & Hw & Hurl & Hr & -> & ->)].
  - split; [eauto|]. intros i s j ->.
    destruct Hmove as [(? & _ & _ & [=])|[(? & ? & _ & _ & _ & [=])|
                      [(i' & s' & _ & Hs & _ & Heq)|[(? & ? & ? & _ & _ & [=])|
                      (? & ? & ? & ? & ? & _ & _ & _ & [=])]]]].
    simplify_eq. apply list_elem_of_lookup. eauto.
  - pose proof (Hcur i server j eq_refl) as Hserver. split.
    + exists (ps ++ [(server, wallet, url, r)]). split.
      * unfold after_probe. cbn [log]. rewrite Hlog, flat_map_app. cbn [flat_map].
        rewrite app_nil_r. reflexivity.
      * intros k s w u r0 Hk. apply lookup_app_Some in Hk as [Hk|[Hlen Hk]];
          [exact (Hps _ _ _ _ _ Hk)|].
        destruct (k - length ps)%nat as [|n] eqn:Hn; [|discriminate].
        injection Hk as <- <- <- <-.
        assert (k = length ps) as -> by lia.
        rewrite <- (probes_issued_entries st ps Hlog).
        repeat split; try assumption. apply list_elem_of_lookup. eauto.
    + intros i' s j' Hpc. destruct (status r); [discriminate| |];
        simplify_eq; exact Hserver.
Qed.

End Genuine.

Lemma genuine_run fs net servers wallets c :
  in_run fs net servers wallets c ->
  exists ps, log c.2 = flat_map entry ps /\ genuine servers wallets net ps.
Proof.
  intros (st & Hsetup & Hreach). apply setup_inr in Hsetup as (-> & _).
  revert Hreach.
  apply (reaches_invariant _ _ _
           (fun c => (exists ps, log c.2 = flat_map entry ps /\
                                 genuine servers wallets net ps) /\
                     (forall i s j, c.1 = AtWallet i s j -> s ∈ servers))).
  - split; [|discriminate]. exists []. split; [reflexivity|].
    intros k s w u r Hk. discriminate.
  - apply genuine_step.
Qed.

(** X17.  Every probe of a run is of a server of [servers.txt] and a wallet of
    [wallets.txt], at the URL [buildUrl] gives for the two; the probes are
    numbered in the order they are made, and the result logged for each is
    what [checkUrl] returned for it. *)
Theorem probes_are_of_listed_pairs fs net servers wallets c :
  in_run fs net servers wallets c ->
  exists ps, log c.2 = flat_map entry ps /\
    forall k s w u r, ps !! k = Some (s, w, u, r) ->
      s ∈ servers /\ w ∈ wallets /\ buildUrl s w = Normal u /\
      checkUrl (net k) u = Normal r.
Proof. apply genuine_run. Qed.

Lemma line_feeds_app a b : line_feeds (a ++ b) = line_feeds a + line_feeds b.
Proof. unfold line_feeds. rewrite List.filter_app, length_app. lia. Qed.

Lemma line_feeds_none s : 10 ∉ s -> line_feeds s = 0.
Proof.
  unfold line_feeds. induction s as [|c s IH]; intros H; [reflexivity|].
  apply not_elem_of_cons in H as [Hc Hs]. cbn [List.filter].
  destruct (N.eqb_spec 10 c); [contradiction|]. exact (IH Hs).
Qed.

Lemma novalid_details_one_line net url r :
  checkUrl net url = Normal r -> status r = novalid -> 10 ∉ details r.
Proof.
  unfold checkUrl, fetchWithTimeout. at_timeout.
  assert (forall d, In d [str "json but structure mismatch"; str "non-json response";
                          str "no _embedded/records in response"] -> 10 ∉ d) as Hfixed.
  { intros d Hd Hin. apply list_elem_of_In in Hin. cbn [In] in Hd.
    destruct Hd as [<-|[<-|[<-|[]]]]; vm_compute in Hin; intuition discriminate. }
  destruct (net url) as [t res|t err|].
  - destruct (t <? TIMEOUT_MS); cbn [bind try_catch]; [|intros [= <-]; discriminate].
    destruct (res_ok res); cbn [negb].
    2:{ intros [= <-] _.
        change (10 ∉ str "HTTP " ++ N_toString (res_status res)). intros Hin.
        apply elem_of_app in Hin as [Hin|Hin].
        - apply list_elem_of_In in Hin. vm_compute in Hin. intuition discriminate.
        - pose proof (uint_digits_are_digits (N.to_uint (res_status res))) as Hd.
          rewrite Forall_forall in Hd. specialize (Hd 10 Hin). discriminate. }
    destruct (res_text res) as [text|e]; cbn [bind try_catch].
    2:{ destruct (jsstring_eqb (name e) (str "AbortError")); intros [= <-];
        discriminate. }
    destruct (includes text (str "_embedded") && includes text (str "records")).
    + destruct (check_json text) as [r0|e] eqn:Hc; cbn [try_catch]; intros [= <-].
      * destruct (check_json_status text r0 Hc) as [Hv | ->]; [congruence|].
        intros _. apply Hfixed. cbn. auto.
      * intros _. apply Hfixed. cbn. auto.
    + intros [= <-] _. apply Hfixed. cbn. auto.
  - destruct (t <? TIMEOUT_MS); cbn [bind try_catch];
      [destruct (jsstring_eqb (name err) (str "AbortError"))|];
      intros [= <-]; discriminate.
  - intros [= <-]; discriminate.
Qed.

Lemma count_status_cons s p ps :
  count_status s (p :: ps) = (if has_status s p then 1 else 0) + count_status s ps.
Proof.
  unfold count_status. cbn [List.filter]. destruct (has_status s p); cbn [length]; lia.
Qed.

Lemma lines_counted servers wallets net ps :
  Forall clean servers -> Forall clean wallets ->
  genuine servers wallets net ps ->
  line_feeds (written "novalid.txt" (flat_map entry ps)) = count_status novalid ps /\
  line_feeds (written "valid.txt" (flat_map entry ps)) = count_status valid ps.
Proof.
  intros Hservers Hwallets. rewrite Forall_forall in Hservers, Hwallets.
  revert net. induction ps as [|[[[s w] u] r] ps IH]; intros net Hps; [split; reflexivity|].
  destruct (Hps 0%nat s w u r eq_refl) as (Hs & Hw & _ & Hr).
  destruct (IH (fun k => net (S k))) as [IHn IHv].
  { intros k s' w' u' r' Hk. exact (Hps (S k) s' w' u' r' Hk). }
  destruct (Hservers s Hs) as (_ & _ & Hslf). destruct (Hwallets w Hw) as (_ & _ & Hwlf).
  cbn [flat_map]. rewrite !written_app, !written_entry, !line_feeds_app, IHn, IHv.
  rewrite !count_status_cons. unfold line_for, has_status. cbn [snd].
  destruct (status r) eqn:Hst; cbn [fst snd].
  - change (String.eqb "valid.txt" "novalid.txt") with false.
    change (String.eqb "valid.txt" "valid.txt") with true. cbv iota.
    rewrite line_feeds_app, (line_feeds_none s Hslf). split; reflexivity.
  - change (String.eqb "novalid.txt" "novalid.txt") with true.
    change (String.eqb "novalid.txt" "valid.txt") with false. cbv iota.
    rewrite !line_feeds_app, (line_feeds_none s Hslf), (line_feeds_none w Hwlf),
      (line_feeds_none (details r) (novalid_details_one_line _ _ _ Hr Hst)).
    split; reflexivity.
  - change (String.eqb "timeout.txt" "novalid.txt") with false.
    change (String.eqb "timeout.txt" "valid.txt") with false. cbv iota.
    split; reflexivity.
Qed.

(** X18.  At every point of a run [novalid.txt] has as many line feeds as the
    novalid counter says, and [valid.txt] has gained as many as the valid
    counter says: one line per probe, whatever the responses were. *)
Theorem output_lines_match_counters fs net servers wallets c :
  in_run fs net servers wallets c ->
  (exists content, files c.2 !! "novalid.txt" = Some content /\
                   line_feeds content = n_novalid (stats c.2)) /\
  line_feeds (valid_txt (files c.2))
  = line_feeds (valid_txt fs) + n_valid (stats c.2).
Proof.
  intros Hrun.
  destruct (accounted_run _ _ _ _ _ Hrun) as [(ps & Hlog & Hstats & _) (Hn & _ & Hv & _)].
  destruct (genuine_run _ _ _ _ _ Hrun) as (ps' & Hlog' & Hps).
  assert (ps' = ps) as -> by (apply entries_inj; congruence).
  destruct Hrun as (st & Hsetup & _).
  apply setup_inr in Hsetup as (_ & (sraw & _ & ->) & (wraw & _ & ->) & _).
  assert (forall raw, Forall clean (read_lines raw)) as Hclean
    by (intros raw; apply Forall_forall; exact (read_lines_clean raw)).
  destruct (lines_counted _ _ net ps (Hclean sraw) (Hclean wraw) Hps) as [Hcn Hcv].
  rewrite Hstats. cbn [n_novalid n_valid]. split.
  - eexists. split; [exact Hn|]. rewrite Hlog. exact Hcn.
  - rewrite Hv, line_feeds_app, Hlog, Hcv. reflexivity.
Qed.

(** ** Runs: no server is left out *)

Lemma settled_after_probe wallets server wallet url r st s :
  settled wallets st s -> settled wallets (after_probe server wallet url r st) s.
Proof.
  unfold settled, after_probe. cbn [validList log]. intros [H|H].
  - left. destruct (status r); [apply elem_of_app; left|..]; exact H.
  - right. intros w Hw. destruct (H w Hw) as (u & r0 & Hin & Hnv).
    exists u, r0. split; [apply elem_of_app; left; exact Hin|exact Hnv].
Qed.

Section Progress.

Variables servers wallets : list jsstring.
Variable net : nat -> jsstring -> NetBehaviour.

Lemma progress_step c c' :
  progress servers wallets c ->
  step servers wallets net c = Some c' ->
  progress servers wallets c'.
Proof.
  destruct c as [pc st], c' as [pc' st']. unfold progress. cbn [fst snd].
  intros Hp Hstep.
  apply step_cases in Hstep
    as [[-> Hmove]|(i & server & j & wallet & url & r & -> & Hw & _ & _ & -> & ->)].
  - destruct Hmove as [(i & -> & Hnone & ->)|[(i & s & -> & Hs & Hin & ->)|
                      [(i & s & -> & Hs & _ & ->)|[(i & s & j & -> & Hnone & ->)|
                      (i & s & j & w & e & -> & _ & _ & ->)]]]].
    + intros s Hs. apply list_elem_of_lookup in Hs as [i' Hi'].
      apply (Hp i' s); [|exact Hi'].
      apply lookup_ge_None in Hnone. apply lookup_lt_Some in Hi'. lia.
    + intros i' s' Hlt Hi'. destruct (decide (i' = i)) as [->|Hne].
      * left. congruence.
      * apply (Hp i' s'); [lia|exact Hi'].
    + split; [exact Hs|]. split; [exact Hp|]. intros j' w Hlt. lia.
    + destruct Hp as (Hi & Hold & Hdone). intros i' s' Hlt Hi'.
      destruct (decide (i' = i)) as [->|Hne]; [|apply (Hold i' s'); [lia|exact Hi']].
      assert (s' = s) as -> by congruence.
      right. intros w Hw. apply list_elem_of_lookup in Hw as [j' Hj'].
      apply (Hdone j' w); [|exact Hj'].
      apply lookup_ge_None in Hnone. apply lookup_lt_Some in Hj'. lia.
    + exact I.
  - destruct Hp as (Hi & Hold & Hdone).
    assert (forall i' s', (i' < i)%nat -> servers !! i' = Some s' ->
              settled wallets (after_probe server wallet url r st) s') as Hold'
      by (intros i' s' Hlt Hi'; apply settled_after_probe, (Hold i' s' Hlt Hi')).
    destruct (status r) eqn:Hst.
    + intros i' s' Hlt Hi'. destruct (decide (i' = i)) as [->|Hne];
        [|apply (Hold' i' s'); [lia|exact Hi']].
      assert (s' = server) as -> by congruence.
      left. unfold after_probe. cbn [validList]. rewrite Hst.
      apply elem_of_app. right. left.
    + split; [exact Hi|]. split; [exact Hold'|]. intros j' w Hlt Hj'.
      unfold after_probe, entry. cbn [log].
      destruct (decide (j' = j)) as [->|Hne].
      * assert (w = wallet) as -> by congruence. exists url, r.
        split; [apply elem_of_app; right; left|congruence].
      * destruct (Hdone j' w) as (u & r0 & Hin & Hnv); [lia|exact Hj'|].
        exists u, r0. split; [apply elem_of_app; left; exact Hin|exact Hnv].
    + split; [exact Hi|]. split; [exact Hold'|]. intros j' w Hlt Hj'.
      unfold after_probe, entry. cbn [log].
      destruct (decide (j' = j)) as [->|Hne].
      * assert (w = wallet) as -> by congruence. exists url, r.
        split; [apply elem_of_app; right; left|congruence].
      * destruct (Hdone j' w) as (u & r0 & Hin & Hnv); [lia|exact Hj'|].
        exists u, r0. split; [apply elem_of_app; left; exact Hin|exact Hnv].
Qed.

End Progress.

(** X19.  When a run ends after the last server, every server of [servers.txt]
    is in the valid list or has been probed with every wallet of [wallets.txt]
    without a valid result: none is left out. *)
Theorem finished_run_settles_every_server fs net servers wallets c :
  main fs net = Ran servers wallets c ->
  c.1 = Finished ->
  forall s, s ∈ servers ->
    s ∈ validList c.2 \/
    forall w, w ∈ wallets ->
      exists u r, Probed s w u (Normal r) ∈ log c.2 /\ status r <> valid.
Proof.
  intros Hmain Hfin.
  destruct (main_in_run _ _ _ _ _ Hmain) as (st & _ & Hreach).
  assert (progress servers wallets c) as Hp.
  { revert Hreach. apply (reaches_invariant _ _ _ (progress servers wallets)).
    - unfold progress. cbn [fst]. intros i' s Hlt. lia.
    - apply progress_step. }
  unfold progress in Hp. rewrite Hfin in Hp. exact Hp.
Qed.

(** ** Runs: the valid list and [valid.txt] *)

Lemma read_lines_app pre rest :
  complete pre -> read_lines (pre ++ rest) = read_lines pre ++ read_lines rest.
Proof.
  intros [->|(p & ->)]; [reflexivity|].
  destruct (split_lines_line_feed p) as (pieces & _ & Hp).
  unfold read_lines, LF. rewrite <- app_assoc. cbn [app].
  rewrite (Hp rest), (Hp []).
  rewrite !map_app, !List.filter_app.
  cbn [split_lines map List.filter trim trimStart rev app nonempty].
  rewrite app_nil_r. reflexivity.
Qed.

Lemma read_lines_lf ls :
  Forall clean ls -> read_lines (flat_map (fun l => l ++ LF) ls) = ls.
Proof.
  unfold read_lines. induction 1 as [|s ls Hs _ IH]; [reflexivity|].
  pose proof Hs as (Ht & Hne & Hlf). cbn [flat_map].
  rewrite <- app_assoc. cbn [LF app].
  rewrite (split_lines_line s _ Hlf (trimmed_last s Ht)).
  rewrite (read_lines_cons s _ Hs), IH. reflexivity.
Qed.

Lemma written_valid ps :
  written "valid.txt" (flat_map entry ps)
  = flat_map (fun l => l ++ LF)
             (map (fun p => p.1.1.1) (List.filter (has_status valid) ps)).
Proof.
  induction ps as [|[[[s w] u] r] ps IH]; [reflexivity|].
  cbn [flat_map]. rewrite written_app, IH.
  unfold written at 1, entry, line_for, has_status. cbn [List.filter snd flat_map].
  destruct (status r); cbn [fst snd map flat_map String.eqb Ascii.eqb Bool.eqb];
    cbv iota; cbn [app]; try rewrite app_nil_r; reflexivity.
Qed.

(** X20.  When [valid.txt] is absent, empty or ends with a line feed at the
    start, the valid list kept in memory is at every point of the run the list
    that loading [valid.txt] at that point would give. *)
Theorem valid_list_mirrors_file fs net servers wallets c :
  complete (valid_txt fs) ->
  in_run fs net servers wallets c ->
  validList c.2 = load_validList (files c.2).
Proof.
  intros Hfs Hrun.
  destruct (accounted_run _ _ _ _ _ Hrun) as [(ps & Hlog & _ & Hlist) (_ & _ & Hv & _)].
  destruct (genuine_run _ _ _ _ _ Hrun) as (ps' & Hlog' & Hps).
  assert (ps' = ps) as -> by (apply entries_inj; congruence).
  destruct Hrun as (st & Hsetup & _).
  apply setup_inr in Hsetup as (_ & (sraw & _ & ->) & _).
  rewrite Hlist, !load_validList_valid_txt, Hv, Hlog, written_valid.
  rewrite (read_lines_app _ _ Hfs). f_equal. symmetry. apply read_lines_lf.
  apply Forall_forall. intros s Hs.
  apply list_elem_of_In, in_map_iff in Hs as ([[[s' w] u] r] & <- & Hin).
  apply filter_In in Hin as [Hin _]. apply list_elem_of_In, list_elem_of_lookup in Hin as [k Hk].
  destruct (Hps k _ _ _ _ Hk) as (Hs & _). cbn [fst].
  exact (read_lines_clean sraw s' Hs).
Qed.

Section Additions.

Variables servers wallets : list jsstring.
Variable net : nat -> jsstring -> NetBehaviour.

Lemma additions_step known c c' :
  additions servers known c ->
  step servers wallets net c = Some c' ->
  additions servers known c'.
Proof.
  destruct c as [pc st], c' as [pc' st']. unfold additions. cbn [fst snd].
  intros [Hcur (found & Hlist & Hnd & Hnew)] Hstep.
  apply step_cases in Hstep
    as [[-> Hmove]|(i & server & j & wallet & url & r & -> & _ & _ & _ & -> & ->)].
  - split; [|eauto].
    intros i s j Hpc.
    destruct Hmove as [(i0 & _ & _ & ->)|[(i0 & s0 & _ & _ & _ & ->)|
                      [(i0 & s0 & _ & Hs & Hout & ->)|[(i0 & s0 & j0 & _ & _ & ->)|
                      (i0 & s0 & j0 & w & e & _ & _ & _ & ->)]]]]; try discriminate.
    simplify_eq. split; [exact Hout|]. apply list_elem_of_lookup. eauto.
  - destruct (Hcur i server j eq_refl) as [Hout Hin].
    unfold after_probe. cbn [validList].
    destruct (status r).
    + split; [discriminate|]. exists (found ++ [server]).
      rewrite Hlist, app_assoc. split; [reflexivity|].
      rewrite Hlist in Hout. apply not_elem_of_app in Hout as [Hk Hf].
      split.
      * apply NoDup_app. split; [exact Hnd|]. split; [|apply NoDup_singleton].
        intros s Hs Hs'. apply list_elem_of_singleton in Hs'. congruence.
      * intros s Hs. apply elem_of_app in Hs as [Hs|Hs]; [auto|].
        apply list_elem_of_singleton in Hs as ->. auto.
    + split; [|eauto]. intros i' s' j' [= -> -> <-]. auto.
    + split; [|eauto]. intros i' s' j' [= -> -> <-]. auto.
Qed.

End Additions.

Lemma additions_run fs net servers wallets c :
  in_run fs net servers wallets c -> additions servers (load_validList fs) c.
Proof.
  intros (st & Hsetup & Hreach). apply setup_inr in Hsetup as (-> & _).
  revert Hreach. apply (reaches_invariant _ _ _ (additions servers (load_validList fs))).
  - split; [discriminate|]. exists []. cbn [snd validList]. rewrite app_nil_r.
    split; [reflexivity|]. split; [constructor|]. intros s Hs.
    apply elem_of_nil in Hs. contradiction.
  - apply additions_step.
Qed.

(** X21.  The valid list in memory only grows at its end, and by servers of
    [servers.txt] that were not in it: no server is added twice in a run, and
    none that the loaded list had.  What the run has appended to [valid.txt]
    is those servers, in that order, each followed by a line feed.  (Whether
    the lines of the whole file are distinct depends on what the file held at
    the start, and is not stated.) *)
Theorem valid_list_gains_only_new_servers fs net servers wallets c :
  in_run fs net servers wallets c ->
  exists found,
    validList c.2 = load_validList fs ++ found /\ NoDup found /\
    (forall s, s ∈ found -> (s ∉ load_validList fs) /\ (s ∈ servers)) /\
    valid_txt (files c.2) = valid_txt fs ++ flat_map (fun s => s ++ LF) found.
Proof.
  intros Hrun.
  destruct (additions_run _ _ _ _ _ Hrun) as [_ (found & Hlist & Hnd & Hnew)].
  exists found. split; [exact Hlist|]. split; [exact Hnd|]. split; [exact Hnew|].
  destruct (accounted_run _ _ _ _ _ Hrun)
    as [(ps & Hlog & _ & Hlist') (_ & _ & Hv & _)].
  rewrite Hv, Hlog, written_valid. do 2 f_equal.
  rewrite Hlist in Hlist'. apply app_inv_head in Hlist'. symmetry. exact Hlist'.
Qed.

(** ** Runs: the order of the probes *)

Lemma grid_app servers servers' wallets :
  grid (servers ++ servers') wallets = grid servers wallets ++ grid servers' wallets.
Proof. apply flat_map_app. Qed.

Lemma grid_take_S servers wallets i s :
  servers !! i = Some s ->
  grid (take (S i) servers) wallets
  = grid (take i servers) wallets ++ map (pair s) wallets.
Proof.
  intros Hs. rewrite (take_S_r _ _ _ Hs), grid_app. cbn [grid flat_map].
  rewrite app_nil_r. reflexivity.
Qed.

Lemma grid_passed servers wallets i s j :
  servers !! i = Some s ->
  sublist (grid (take i servers) wallets ++ map (pair s) (take j wallets))
          (grid servers wallets).
Proof.
  intros Hs. rewrite <- (take_drop_middle servers i s Hs) at 2.
  rewrite grid_app. apply sublist_app; [reflexivity|].
  cbn [grid flat_map]. apply sublist_inserts_r.
  rewrite <- (take_drop j wallets) at 2. rewrite map_app.
  apply sublist_inserts_r. reflexivity.
Qed.

Lemma probed_pairs_app evs evs' :
  probed_pairs (evs ++ evs') = probed_pairs evs ++ probed_pairs evs'.
Proof. apply flat_map_app. Qed.

Section Order.

Variables servers wallets : list jsstring.
Variable net : nat -> jsstring -> NetBehaviour.

Lemma in_order_step c c' :
  in_order servers wallets c ->
  step servers wallets net c = Some c' ->
  in_order servers wallets c'.
Proof.
  destruct c as [pc st], c' as [pc' st']. unfold in_order. cbn [fst snd].
  intros (cells & Hcells & Hsub) Hstep.
  apply step_cases in Hstep
    as [[-> Hmove]|(i & server & j & wallet & url & r & -> & Hw & _ & _ & -> & ->)].
  - destruct Hmove as [(i & -> & Hnone & ->)|[(i & s & -> & Hs & _ & ->)|
                      [(i & s & -> & Hs & _ & ->)|[(i & s & j & -> & Hnone & ->)|
                      (i & s & j & w & e & -> & _ & _ & ->)]]]];
      cbn [passed] in Hcells |- *.
    + simplify_eq. eexists. split; [reflexivity|].
      rewrite take_ge in Hsub by (apply lookup_ge_None; exact Hnone). exact Hsub.
    + simplify_eq. eexists. split; [reflexivity|].
      rewrite (grid_take_S _ _ _ _ Hs). apply sublist_inserts_r. exact Hsub.
    + simplify_eq. rewrite bool_decide_true by exact Hs.
      eexists. split; [reflexivity|]. cbn [take map]. rewrite app_nil_r. exact Hsub.
    + destruct (bool_decide_reflect (servers !! i = Some s)) as [Hs|]; [|discriminate].
      simplify_eq. eexists. split; [reflexivity|].
      rewrite (grid_take_S _ _ _ _ Hs).
      rewrite (take_ge wallets j) in Hsub by (apply lookup_ge_None; exact Hnone).
      exact Hsub.
    + destruct (bool_decide_reflect (servers !! i = Some s)) as [Hs|]; [|discriminate].
      simplify_eq. eexists. split; [reflexivity|].
      etransitivity; [exact Hsub|]. apply grid_passed. exact Hs.
  - cbn [passed] in Hcells.
    destruct (bool_decide_reflect (servers !! i = Some server)) as [Hs|]; [|discriminate].
    simplify_eq.
    assert (probed_pairs (log (after_probe server wallet url r st))
            = probed_pairs (log st) ++ [(server, wallet)]) as ->
      by (unfold after_probe, entry; cbn [log]; rewrite probed_pairs_app; reflexivity).
    assert (sublist (probed_pairs (log st) ++ [(server, wallet)])
                    (grid (take i servers) wallets
                     ++ map (pair server) (take (S j) wallets))) as Hnext.
    { rewrite (take_S_r _ _ _ Hw), map_app, app_assoc.
      apply sublist_app; [exact Hsub|reflexivity]. }
    destruct (status r); cbn [passed].
    + eexists. split; [reflexivity|].
      etransitivity; [exact Hnext|].
      rewrite (grid_take_S _ _ _ _ Hs). apply sublist_app; [reflexivity|].
      rewrite <- (take_drop (S j) wallets) at 2. rewrite map_app.
      apply sublist_inserts_r. reflexivity.
    + rewrite bool_decide_true by exact Hs. eexists. split; [reflexivity|exact Hnext].
    + rewrite bool_decide_true by exact Hs. eexists. split; [reflexivity|exact Hnext].
Qed.

End Order.

(** X22.  The probes of a run are made in the order of the files: the pairs of
    server and wallet probed, as logged, are a subsequence of the servers of
    [servers.txt] each paired with the wallets of [wallets.txt] in turn. *)
Theorem probes_follow_file_order fs net servers wallets c :
  in_run fs net servers wallets c ->
  sublist (probed_pairs (log c.2)) (grid servers wallets).
Proof.
  intros (st & Hsetup & Hreach). apply setup_inr in Hsetup as (-> & _).
  assert (in_order servers wallets c) as (cells & Hcells & Hsub).
  { revert Hreach. apply (reaches_invariant _ _ _ (in_order servers wallets)).
    - eexists. split; [reflexivity|]. cbn. constructor.
    - apply in_order_step. }
  etransitivity; [exact Hsub|].
  destruct c as [[i|i s j| |e] st]; cbn [fst passed] in Hcells.
  - simplify_eq. rewrite <- (take_drop i servers) at 2. rewrite grid_app.
    apply sublist_inserts_r. reflexivity.
  - destruct (bool_decide_reflect (servers !! i = Some s)) as [Hs|]; [|discriminate].
    simplify_eq. apply grid_passed. exact Hs.
  - simplify_eq. reflexivity.
  - simplify_eq. reflexivity.
Qed.

(** ** Runs: what is written stays *)

Lemma extends_refl st : extends st st.
Proof.
  split; [|split; [|split]].
  - intros file content H. exists []. rewrite app_nil_r. exact H.
  - exists []. rewrite app_nil_r. reflexivity.
  - exists []. rewrite app_nil_r. reflexivity.
  - lia.
Qed.

Lemma extends_trans st1 st2 st3 : extends st1 st2 -> extends st2 st3 -> extends st1 st3.
Proof.
  intros (Hf & (l & Hl) & (e & He) & Hs) (Hf' & (l' & Hl') & (e' & He') & Hs').
  split; [|split; [|split]].
  - intros file content H. destruct (Hf file content H) as [more Hm].
    destruct (Hf' file _ Hm) as [more' Hm']. exists (more ++ more').
    rewrite app_assoc. exact Hm'.
  - exists (l ++ l'). rewrite Hl', Hl, app_assoc. reflexivity.
  - exists (e ++ e'). rewrite He', He, app_assoc. reflexivity.
  - lia.
Qed.

Lemma extends_after_probe server wallet url r st :
  extends st (after_probe server wallet url r st).
Proof.
  unfold after_probe. split; [|split; [|split]]; cbn [files validList log stats].
  - intros file content H. unfold appendFile.
    destruct (decide (file = (line_for server wallet r).1)) as [->|Hne].
    + rewrite lookup_insert_eq, H. cbn [default]. eauto.
    + rewrite lookup_insert_ne by congruence. exists []. rewrite app_nil_r. exact H.
  - destruct (status r); [eauto|exists []; rewrite app_nil_r; reflexivity..].
  - eauto.
  - unfold bump. destruct (status r); cbn [stats n_valid n_novalid n_timeout]; lia.
Qed.

(** X23.  Nothing written is lost: from any configuration on, whatever the
    loops do next, also when they crash, every file keeps what it holds and
    only gets more appended, the valid list and the log only grow at their
    ends, and no counter goes down. *)
Theorem written_lines_persist servers wallets net c c' :
  reaches servers wallets net c c' -> extends c.2 c'.2.
Proof.
  induction 1 as [c|c c' c'' _ IH Hstep]; [apply extends_refl|].
  apply (extends_trans _ c'.2); [exact IH|].
  destruct c' as [pc' st'], c'' as [pc'' st'']. cbn [snd].
  apply step_cases in Hstep as [[-> _]|(i & s & j & w & u & r & _ & _ & _ & _ & -> & _)].
  - apply extends_refl.
  - apply extends_after_probe.
Qed.

(** ** The further properties on concrete inputs *)

Lemma example_main :
  main example_files example_net = Ran example_servers example_wallets example_end.
Proof. vm_compute. reflexivity. Qed.

Lemma checkUrl_timeout_iff_witness :
  status (mkResult timeout (str "fetch timeout")) = timeout <-> ~ readable Hangs.
Proof.
  apply (checkUrl_timeout_iff (fun _ => Hangs) []). reflexivity.
Defined.


Lemma checkUrl_novalid_details_witness :
  (10 ∉ str "HTTP 404") /\ (124 ∉ str "HTTP 404").
Proof.
  apply (checkUrl_novalid_details (replies 404 "gone") [] (mkResult novalid (str "HTTP 404")));
    reflexivity.
Defined.

Lemma checkUrl_http_error_witness :
  checkUrl (replies 404 "gone") example_url = Normal (mkResult novalid (str "HTTP 404")).
Proof.
  apply (checkUrl_http_error (replies 404 "gone") example_url 0
           (mkResponse 404 (Normal (quoted "gone"))));
    [reflexivity|reflexivity|cbn; lia].
Defined.

Lemma checkUrl_not_json_witness :
  checkUrl (replies 200 "no records, no _embedded") example_url
  = Normal (mkResult novalid (str "non-json response")) /\
  checkUrl (replies 200 "busy") example_url
  = Normal (mkResult novalid (str "no _embedded/records in response")).
Proof.
  split.
  - apply (checkUrl_not_json (replies 200 "no records, no _embedded") example_url 0
             (mkResponse 200 (Normal (quoted "no records, no _embedded")))
             (quoted "no records, no _embedded") SyntaxError); reflexivity.
  - apply (checkUrl_not_json (replies 200 "busy") example_url 0
             (mkResponse 200 (Normal (quoted "busy"))) (quoted "busy") SyntaxError);
      reflexivity.
Defined.

Lemma run_ends_and_probes_bounded_witness :
  step example_servers example_wallets example_net example_end = None /\
  (probes_issued example_end.2 <= length example_servers * length example_wallets)%nat.
Proof.
  destruct (run_ends_and_probes_bounded example_files example_net example_servers
              example_wallets) as [Hend Hbound].
  split.
  - exact (proj1 (Hend _ example_main)).
  - exact (Hbound _ (example_in_run _)).
Defined.

Lemma run_crashes_only_on_ill_formed_wallet_witness :
  example_end.1 = Finished /\ exit_code (main example_files example_net) = 0.
Proof.
  apply (proj2 (run_crashes_only_on_ill_formed_wallet _ _ _ _ _ example_main)).
  intros w Hw. apply list_elem_of_In in Hw.
  destruct Hw as [<-|[<-|[]]]; eexists; reflexivity.
Defined.

Lemma run_state_is_its_probes_witness :
  exists ps,
    log example_end.2 = flat_map entry ps /\
    stats example_end.2 = mkStats (count_status valid ps) (count_status novalid ps)
                                  (count_status timeout ps) /\
    validList example_end.2
    = load_validList example_files
      ++ map (fun p => p.1.1.1) (List.filter (has_status valid) ps).
Proof. exact (run_state_is_its_probes _ _ _ _ _ (example_in_run _)). Defined.

Lemma run_files_are_its_lines_witness :
  files example_end.2 !! "novalid.txt"
  = Some (written "novalid.txt" (log example_end.2)) /\
  valid_txt (files example_end.2)
  = valid_txt example_files ++ written "valid.txt" (log example_end.2).
Proof.
  destruct (run_files_are_its_lines _ _ _ _ _ (example_in_run
              (enough example_servers example_wallets))) as (Hn & _ & Hv & _).
  split; [exact Hn|exact Hv].
Defined.

Lemma probes_are_of_listed_pairs_witness :
  exists ps, log example_end.2 = flat_map entry ps /\
    forall k s w u r, ps !! k = Some (s, w, u, r) ->
      s ∈ example_servers /\ w ∈ example_wallets /\ buildUrl s w = Normal u /\
      checkUrl (example_net k) u = Normal r.
Proof. exact (probes_are_of_listed_pairs _ _ _ _ _ (example_in_run _)). Defined.

Lemma probes_follow_file_order_witness :
  sublist (probed_pairs (log example_end.2)) (grid example_servers example_wallets).
Proof. exact (probes_follow_file_order _ _ _ _ _ (example_in_run _)). Defined.

Lemma output_lines_match_counters_witness :
  line_feeds (valid_txt (files example_end.2))
  = line_feeds (valid_txt example_files) + n_valid (stats example_end.2).
Proof.
  exact (proj2 (output_lines_match_counters _ _ _ _ _ (example_in_run _))).
Defined.

Lemma finished_run_settles_every_server_witness :
  str "a.example" ∈ validList example_end.2 \/
  forall w, w ∈ example_wallets ->
    exists u r, Probed (str "a.example") w u (Normal r) ∈ log example_end.2 /\
                status r <> valid.
Proof.
  apply (finished_run_settles_every_server _ _ _ _ _ example_main).
  - reflexivity.
  - left.
Defined.

Lemma valid_list_mirrors_file_witness :
  complete (valid_txt example_files) /\
  validList example_end.2 = load_validList (files example_end.2).
Proof.
  assert (complete (valid_txt example_files)) as H
    by (right; exists (str "b.example:8080"); reflexivity).
  split; [exact H|].
  exact (valid_list_mirrors_file _ _ _ _ _ H (example_in_run _)).
Defined.

Lemma valid_list_gains_only_new_servers_witness :
  exists found,
    validList example_end.2 = load_validList example_files ++ found /\ NoDup found /\
    (forall s, s ∈ found -> (s ∉ load_validList example_files) /\ (s ∈ example_servers)) /\
    valid_txt (files example_end.2)
    = valid_txt example_files ++ flat_map (fun s => s ++ LF) found.
Proof. exact (valid_list_gains_only_new_servers _ _ _ _ _ (example_in_run _)). Defined.

Lemma written_lines_persist_witness :
  extends example_start example_end.2.
Proof.
  apply (written_lines_persist example_servers example_wallets example_net
           (AtServer 0, example_start) example_end).
  apply run_reaches.
Defined.
